(** * todotxt-parser: a shallow embedding of [src/parser.ts]

    JavaScript strings are sequences of UTF-16 code units; a string is
    modelled as a list of code units ([N]).  The regular expressions of
    the parser carry no [u], [i] or [m] flag, so they see code units, [^]
    only matches at index 0 and the classes are the ECMAScript ones:
    [\s] is WhiteSpace + LineTerminator (the same set [String.prototype.trim]
    strips), [\d] is [0-9], [[A-Z]] is the 26 ASCII capitals.

    Indices ([number] in the source) are modelled as [Z]; fractional and
    NaN indices are outside the model. *)

From Stdlib Require Import NArith ZArith Lia.
From Stdlib Require Strings.String Strings.Ascii.
From stdpp Require Import gmap list.
Import String.StringSyntax.
Delimit Scope string_scope with string.

Abbreviation char := N (only parsing).
Abbreviation str := (list N) (only parsing).

(** ** Code units and character classes *)

Module Char.
Local Open Scope N_scope.

Definition LF : char := 10.
Definition SP : char := 32.
Definition LPAREN : char := 40.
Definition RPAREN : char := 41.
Definition PLUS : char := 43.
Definition MINUS : char := 45.
Definition COLON : char := 58.
Definition AT : char := 64.
Definition LOWER_X : char := 120.

(** [\s], and the characters removed by [trim()]: TAB, LF, VT, FF, CR,
    SPACE, NBSP, U+1680, U+2000..U+200A, U+2028, U+2029, U+202F, U+205F,
    U+3000 and U+FEFF. *)
Definition is_space (c : char) : bool :=
  ((9 <=? c) && (c <=? 13)) || (c =? 32) || (c =? 160) || (c =? 5760)
  || ((8192 <=? c) && (c <=? 8202)) || (c =? 8232) || (c =? 8233)
  || (c =? 8239) || (c =? 8287) || (c =? 12288) || (c =? 65279).

(** [\d] *)
Definition is_digit (c : char) : bool := (48 <=? c) && (c <=? 57).

(** [[A-Z]] *)
Definition is_upper (c : char) : bool := (65 <=? c) && (c <=? 90).
End Char.
Export Char.

(** String literals of the source, as code units (ASCII only). *)
Fixpoint js (s : String.string) : str :=
  match s with
  | String.EmptyString => []
  | String.String a r => Ascii.N_of_ascii a :: js r
  end.
Arguments js s%_string.

(** ** String primitives *)

Fixpoint trimStart (s : str) : str :=
  match s with
  | [] => []
  | c :: r => if is_space c then trimStart r else s
  end.

Fixpoint trimEnd (s : str) : str :=
  match s with
  | [] => []
  | c :: r =>
      match trimEnd r with
      | [] => if is_space c then [] else [c]
      | r' => c :: r'
      end
  end.

(** [s.trim()] *)
Definition trim (s : str) : str := trimEnd (trimStart s).

(** [s.startsWith(p)] *)
Fixpoint startsWith (p s : str) : bool :=
  match p, s with
  | [], _ => true
  | _ :: _, [] => false
  | a :: p', b :: s' => (a =? b)%N && startsWith p' s'
  end.

(** [text.split("\n")]: never empty, [""] splits to [[""]]. *)
Fixpoint split_lines (s : str) : list str :=
  match s with
  | [] => [[]]
  | c :: r =>
      if (c =? LF)%N then [] :: split_lines r
      else match split_lines r with
           | [] => [[c]]
           | l :: ls => (c :: l) :: ls
           end
  end.

(** [lines.join("\n")] *)
Fixpoint join_lines (ls : list str) : str :=
  match ls with
  | [] => []
  | [l] => l
  | l :: rest => l ++ LF :: join_lines rest
  end.

(** Truthiness of a [string | undefined] value: [undefined] and [""] are
    falsy. *)
Definition truthy (o : option str) : bool :=
  match o with
  | Some (_ :: _) => true
  | _ => false
  end.

(** ** Regular expressions

    A successful [exec] is the match array: index 0 is the whole match,
    the following indices are the capture groups. *)

Abbreviation RegExpMatch := (list (list N)) (only parsing).

(** Greedy [\S*] at the current position: the longest run of
    non-whitespace code units. *)
Fixpoint nonspace_run (s : str) : str :=
  match s with
  | [] => []
  | c :: r => if is_space c then [] else c :: nonspace_run r
  end.

(** [/^\(([A-Z])\)\s/] *)
Definition priority_exec (s : str) : option RegExpMatch :=
  match s with
  | lp :: p :: rp :: w :: _ =>
      if (lp =? LPAREN)%N && is_upper p && (rp =? RPAREN)%N && is_space w
      then Some [[lp; p; rp; w]; [p]]
      else None
  | _ => None
  end.

(** [/^(\d{4}-\d{2}-\d{2})\s/] *)
Definition date_exec (s : str) : option RegExpMatch :=
  match s with
  | y1 :: y2 :: y3 :: y4 :: h1 :: m1 :: m2 :: h2 :: d1 :: d2 :: w :: _ =>
      if is_digit y1 && is_digit y2 && is_digit y3 && is_digit y4
         && (h1 =? MINUS)%N && is_digit m1 && is_digit m2
         && (h2 =? MINUS)%N && is_digit d1 && is_digit d2 && is_space w
      then Some [[y1; y2; y3; y4; h1; m1; m2; h2; d1; d2; w];
                 [y1; y2; y3; y4; h1; m1; m2; h2; d1; d2]]
      else None
  | _ => None
  end.

(** The tail [sigil(\S+)] of the annotation expressions, anchored at the
    current position; the greedy run is returned. *)
Definition sigil_run (sigil : char) (s : str) : option str :=
  match s with
  | c :: r =>
      if (c =? sigil)%N
      then match nonspace_run r with
           | [] => None
           | run => Some run
           end
      else None
  | [] => None
  end.

(** One attempt of [/(?:^|\s)\+(\S+)/] (or the same with [@]) at the
    current position; [bos] tells whether the position is index 0.  The
    alternative [^] is tried first, then [\s]. *)
Definition annotation_exec (sigil : char) (bos : bool) (s : str)
  : option RegExpMatch :=
  match (if bos then sigil_run sigil s else None) with
  | Some run => Some [sigil :: run; run]
  | None =>
      match s with
      | w :: s' =>
          if is_space w
          then match sigil_run sigil s' with
               | Some run => Some [w :: sigil :: run; run]
               | None => None
               end
          else None
      | [] => None
      end
  end.

(** The lazy key of [/(\S+?):(\S+)/]: with [key] matched so far, first try
    to continue with [:(\S+)]; when that fails, extend the key by one more
    non-whitespace code unit. *)
Fixpoint tag_key (key : str) (s : str) : option RegExpMatch :=
  match s with
  | [] => None
  | c :: r =>
      match (if (c =? COLON)%N
             then match nonspace_run r with
                  | [] => None
                  | v => Some v
                  end
             else None) with
      | Some v => Some [key ++ COLON :: v; key; v]
      | None => if is_space c then None else tag_key (key ++ [c]) r
      end
  end.

(** One attempt of [/(\S+?):(\S+)/] at the current position. *)
Definition tag_exec (bos : bool) (s : str) : option RegExpMatch :=
  match s with
  | [] => None
  | c :: r => if is_space c then None else tag_key [c] r
  end.

(** [s.matchAll(re)] for a global expression.  [exec bos s] is one match
    attempt at the current position.  [skip] is [lastIndex] minus the
    current index: the number of code units still covered by the previous
    match.  After a match of length [n] the search resumes [n] code units
    further (one further for an empty match). *)
Fixpoint matchAll_from (exec : bool -> str -> option RegExpMatch)
    (skip : nat) (bos : bool) (s : str) : list RegExpMatch :=
  match skip with
  | S k =>
      match s with
      | [] => []
      | _ :: s' => matchAll_from exec k false s'
      end
  | O =>
      match exec bos s with
      | Some m =>
          m :: match s with
               | [] => []
               | _ :: s' =>
                   matchAll_from exec (pred (length (default [] (m !! 0%nat))))
                     false s'
               end
      | None =>
          match s with
          | [] => []
          | _ :: s' => matchAll_from exec 0 false s'
          end
      end
  end.

Definition matchAll (exec : bool -> str -> option RegExpMatch) (s : str)
  : list RegExpMatch :=
  matchAll_from exec 0 true s.

(** ** The data model ([types.ts]) *)

Record Todo := mkTodo {
  completed : bool;
  priority : option str;
  completionDate : option str;
  creationDate : option str;
  description : str;
  projects : list str;
  contexts : list str;
  tags : gmap str str;
  raw : str
}.

(** [tags[key] = value] on an object created by [{}]: every key becomes an
    own property except ["__proto__"], whose inherited setter ignores a
    string value. *)
Definition obj_set (key value : str) (o : gmap str str) : gmap str str :=
  if decide (key = js "__proto__") then o else <[key := value]> o.

(** ** [parseTodoLine] *)

(** [completed ? trimmed.slice(2).trim() : trimmed] *)
Definition after_completion (completed : bool) (trimmed : str) : str :=
  if completed then trim (drop 2 trimmed) else trimmed.

(** The block "Parse priority": the priority and the new [remaining]. *)
Definition parse_priority (remaining : str) : option str * str :=
  match priority_exec remaining with
  | Some m => (m !! 1%nat, drop (length (default [] (m !! 0%nat))) remaining)
  | None => (None, remaining)
  end.

(** The block "Parse dates": completion date, creation date and the new
    [remaining]. *)
Definition parse_dates (completed : bool) (remaining : str)
  : option str * option str * str :=
  match date_exec remaining with
  | Some first =>
      let remaining := drop (length (default [] (first !! 0%nat))) remaining in
      match date_exec remaining with
      | Some second =>
          (first !! 1%nat, second !! 1%nat,
           drop (length (default [] (second !! 0%nat))) remaining)
      | None =>
          if completed then (first !! 1%nat, None, remaining)
          else (None, first !! 1%nat, remaining)
      end
  | None => (None, None, remaining)
  end.

(** The loops over [projectMatches] and [contextMatches]. *)
Definition collect_annotations (ms : list RegExpMatch) : list str :=
  foldl (fun acc m =>
           if truthy (m !! 1%nat) then acc ++ [default [] (m !! 1%nat)]
           else acc) [] ms.

(** The loop over [tagMatches]. *)
Definition collect_tags (ms : list RegExpMatch) : gmap str str :=
  foldl (fun acc m =>
           let m0 := default [] (m !! 0%nat) in
           if truthy (m !! 1%nat) && truthy (m !! 2%nat)
              && negb (startsWith [PLUS] m0) && negb (startsWith [AT] m0)
           then obj_set (default [] (m !! 1%nat)) (default [] (m !! 2%nat)) acc
           else acc) ∅ ms.

Definition parseTodoLine (line : str) : Todo :=
  let trimmed := trim line in
  let completed := startsWith (js "x ") trimmed in
  let remaining := after_completion completed trimmed in
  let '(priority, remaining) := parse_priority remaining in
  let '(completionDate, creationDate, remaining) :=
    parse_dates completed remaining in
  {| completed := completed;
     priority := priority;
     completionDate := completionDate;
     creationDate := creationDate;
     description := remaining;
     projects := collect_annotations (matchAll (annotation_exec PLUS) trimmed);
     contexts := collect_annotations (matchAll (annotation_exec AT) trimmed);
     tags := collect_tags (matchAll tag_exec trimmed);
     raw := line |}.

(** ** [parseTodoTxt] *)

Definition parseTodoTxt (text : str) : list Todo :=
  foldl (fun todos line =>
           if (0 <? length (trim line))%nat then todos ++ [parseTodoLine line]
           else todos) [] (split_lines text).

(** ** [serializeTodo] *)

Definition serializeTodo (todo : Todo) : str :=
  let result := [] in
  let result := if completed todo then result ++ js "x " else result in
  let result :=
    if truthy (priority todo)
    then result ++ js "(" ++ default [] (priority todo) ++ js ") "
    else result in
  let result :=
    if completed todo && truthy (completionDate todo)
    then result ++ default [] (completionDate todo) ++ js " "
    else result in
  let result :=
    if truthy (creationDate todo)
    then result ++ default [] (creationDate todo) ++ js " "
    else result in
  result ++ description todo.

(** ** Buffer operations *)

Definition render (todos : list Todo) : str :=
  join_lines (serializeTodo <$> todos).

Definition updateTodoInList (todos : list Todo) (index : Z)
    (updatedTodo : Todo) : str :=
  if (length todos =? 0)%nat then []
  else if (index <? 0)%Z || (Z.of_nat (length todos) <=? index)%Z
  then render todos
  else render (<[Z.to_nat index := updatedTodo]> todos).

Definition appendTaskToFile (content : str) (newTask : Todo) : str :=
  let serializedTask := serializeTodo newTask in
  if (length content =? 0)%nat then serializedTask
  else content ++ LF :: serializedTask.

Definition updateTaskAtLine (content : str) (lineIndex : Z)
    (updatedTodo : Todo) : str :=
  if (length content =? 0)%nat then []
  else
    let todos := parseTodoTxt content in
    if (lineIndex <? 0)%Z || (Z.of_nat (length todos) <=? lineIndex)%Z
    then content
    else updateTodoInList todos lineIndex updatedTodo.

(** [todos.filter((_todo, index) => p(index))] *)
Fixpoint filter_index {A} (p : nat -> bool) (i : nat) (l : list A) : list A :=
  match l with
  | [] => []
  | x :: r => if p i then x :: filter_index p (S i) r
              else filter_index p (S i) r
  end.

Definition deleteTaskAtLine (content : str) (lineIndex : Z) : str :=
  if (length content =? 0)%nat then []
  else
    let todos := parseTodoTxt content in
    if (lineIndex <? 0)%Z || (Z.of_nat (length todos) <=? lineIndex)%Z
    then content
    else
      let updatedTodos :=
        filter_index (fun index => negb (Z.of_nat index =? lineIndex)%Z) 0
          todos in
      if (length updatedTodos =? 0)%nat then []
      else render updatedTodos.

(** ** Evaluation with exceptions

    The definitions above are total functions.  The source can still
    throw where it reads a property of [null] or [undefined]: the result
    of [String.prototype.match] is [null] when nothing matches, and an
    element of a match array is [undefined] when it is absent.  The
    definitions below evaluate the same statements with these reads
    made explicit; every other operation of the source (string methods
    called on a string, concatenation, template literals, array copy,
    index write, [push], [map], [filter], [join]) completes normally. *)

Inductive JsError : Type := TypeError.

(** The outcome of an evaluation: a value, or a thrown error. *)
Inductive Completion (A : Type) : Type :=
| Normal (a : A)
| Throw (e : JsError).
Arguments Normal {A} a.
Arguments Throw {A} e.

(** Sequencing: a thrown error ends the evaluation. *)
Definition bind {A B} (c : Completion A) (f : A -> Completion B)
  : Completion B :=
  match c with
  | Normal a => f a
  | Throw e => Throw e
  end.

Notation "'let*' x := c 'in' k" := (bind c (fun x => k))
  (at level 10, x pattern, c at level 200, k at level 200).

(** [m[i]] where [m] is a match array or [null]. *)
Definition element (m : option RegExpMatch) (i : nat)
  : Completion (option str) :=
  match m with
  | Some a => Normal (a !! i)
  | None => Throw TypeError
  end.

(** [s.length] where [s] is a string or [undefined]. *)
Definition length_of (s : option str) : Completion nat :=
  match s with
  | Some x => Normal (length x)
  | None => Throw TypeError
  end.

(** [s.startsWith(p)] where [s] is a string or [undefined]. *)
Definition startsWith_of (p : str) (s : option str) : Completion bool :=
  match s with
  | Some x => Normal (startsWith p x)
  | None => Throw TypeError
  end.

(** Truthiness of a match array or [null]. *)
Definition matched (m : option RegExpMatch) : bool :=
  match m with
  | Some _ => true
  | None => false
  end.

(** The block "Parse priority". *)
Definition parse_priority_run (remaining : str)
  : Completion (option str * str) :=
  let priorityMatch := priority_exec remaining in
  if matched priorityMatch
  then let* priority := element priorityMatch 1 in
       let* whole := element priorityMatch 0 in
       let* n := length_of whole in
       Normal (priority, drop n remaining)
  else Normal (None, remaining).

(** The block "Parse dates". *)
Definition parse_dates_run (completed : bool) (remaining : str)
  : Completion (option str * option str * str) :=
  let firstDateMatch := date_exec remaining in
  if matched firstDateMatch
  then let* whole := element firstDateMatch 0 in
       let* n := length_of whole in
       let remaining := drop n remaining in
       let secondDateMatch := date_exec remaining in
       if matched secondDateMatch
       then let* completionDate := element firstDateMatch 1 in
            let* creationDate := element secondDateMatch 1 in
            let* whole := element secondDateMatch 0 in
            let* n := length_of whole in
            Normal (completionDate, creationDate, drop n remaining)
       else let* date := element firstDateMatch 1 in
            if completed then Normal (date, None, remaining)
            else Normal (None, date, remaining)
  else Normal (None, None, remaining).

(** The loop over [tagMatches]; [&&] evaluates its right operand only when
    the left one is truthy. *)
Fixpoint collect_tags_run (tags : gmap str str) (ms : list RegExpMatch)
  : Completion (gmap str str) :=
  match ms with
  | [] => Normal tags
  | m :: rest =>
      let* tags := (if truthy (m !! 1%nat) && truthy (m !! 2%nat)
              then let* is_project := startsWith_of [PLUS] (m !! 0%nat) in
                   if is_project then Normal tags
                   else let* is_context := startsWith_of [AT] (m !! 0%nat) in
                        if is_context then Normal tags
                        else Normal (obj_set (default [] (m !! 1%nat))
                                       (default [] (m !! 2%nat)) tags)
              else Normal tags) in
      collect_tags_run tags rest
  end.

Definition parseTodoLine_run (line : str) : Completion Todo :=
  let trimmed := trim line in
  let completed := startsWith (js "x ") trimmed in
  let remaining := after_completion completed trimmed in
  let* (priority, remaining) := parse_priority_run remaining in
  let* (completionDate, creationDate, remaining) :=
    parse_dates_run completed remaining in
  let projects :=
    collect_annotations (matchAll (annotation_exec PLUS) trimmed) in
  let contexts :=
    collect_annotations (matchAll (annotation_exec AT) trimmed) in
  let* tags := collect_tags_run ∅ (matchAll tag_exec trimmed) in
  Normal {| completed := completed;
            priority := priority;
            completionDate := completionDate;
            creationDate := creationDate;
            description := remaining;
            projects := projects;
            contexts := contexts;
            tags := tags;
            raw := line |}.

(** The loop of [parseTodoTxt]. *)
Fixpoint parse_lines_run (todos : list Todo) (lines : list str)
  : Completion (list Todo) :=
  match lines with
  | [] => Normal todos
  | line :: rest =>
      let* todos := (if (0 <? length (trim line))%nat
               then let* todo := parseTodoLine_run line in
                    Normal (todos ++ [todo])
               else Normal todos) in
      parse_lines_run todos rest
  end.

Definition parseTodoTxt_run (text : str) : Completion (list Todo) :=
  parse_lines_run [] (split_lines text).

(** [serializeTodo], [updateTodoInList] and [appendTaskToFile] read no
    property of a value that can be [null] or [undefined]: a template
    literal prints such a value, it does not throw on it. *)
Definition serializeTodo_run (todo : Todo) : Completion (str) :=
  Normal (serializeTodo todo).

Definition updateTodoInList_run (todos : list Todo) (index : Z)
    (updatedTodo : Todo) : Completion (str) :=
  Normal (updateTodoInList todos index updatedTodo).

Definition appendTaskToFile_run (content : str) (newTask : Todo)
  : Completion (str) :=
  let* serializedTask := serializeTodo_run newTask in
  if (length content =? 0)%nat then Normal serializedTask
  else Normal (content ++ LF :: serializedTask).

Definition updateTaskAtLine_run (content : str) (lineIndex : Z)
    (updatedTodo : Todo) : Completion (str) :=
  if (length content =? 0)%nat then Normal []
  else
    let* todos := parseTodoTxt_run content in
    if (lineIndex <? 0)%Z || (Z.of_nat (length todos) <=? lineIndex)%Z
    then Normal content
    else updateTodoInList_run todos lineIndex updatedTodo.

Definition deleteTaskAtLine_run (content : str) (lineIndex : Z)
  : Completion (str) :=
  if (length content =? 0)%nat then Normal []
  else
    let* todos := parseTodoTxt_run content in
    if (lineIndex <? 0)%Z || (Z.of_nat (length todos) <=? lineIndex)%Z
    then Normal content
    else
      let updatedTodos :=
        filter_index (fun index => negb (Z.of_nat index =? lineIndex)%Z) 0
          todos in
      if (length updatedTodos =? 0)%nat then Normal []
      else Normal (render updatedTodos).

(** ** The values of [remaining] inside [parseTodoLine] *)

(** [remaining] when the block "Parse priority" starts. *)
Definition remaining_after_completion (line : str) : str :=
  let trimmed := trim line in
  after_completion (startsWith (js "x ") trimmed) trimmed.

(** [remaining] when the block "Parse dates" starts. *)
Definition remaining_after_priority (line : str) : str :=
  (parse_priority (remaining_after_completion line)).2.

(** ** Specification-side notions *)

(** No leading whitespace. *)
Definition no_lead (s : str) : Prop :=
  match s with
  | [] => True
  | c :: _ => is_space c = false
  end.

(** No trailing whitespace. *)
Definition no_trail (s : str) : Prop := trimEnd s = s.

(** A date token: exactly 4 digits, [-], 2 digits, [-], 2 digits. *)
Definition date_format (d : str) : bool :=
  (length d =? 10)%nat
  && forallb is_digit (take 4 d)
  && bool_decide (d !! 4%nat = Some MINUS)
  && forallb is_digit (take 2 (drop 5 d))
  && bool_decide (d !! 7%nat = Some MINUS)
  && forallb is_digit (drop 8 d).

(** The text starts with a date token and one whitespace code unit. *)
Definition starts_with_date (s : str) : Prop :=
  exists d w r, s = d ++ w :: r /\ date_format d = true /\ is_space w = true.

(** The text starts with ["("], one capital, [")"] and one whitespace code
    unit. *)
Definition starts_with_priority (s : str) : Prop :=
  exists p w r,
    s = LPAREN :: p :: RPAREN :: w :: r /\ is_upper p = true
    /\ is_space w = true.

(** The layout of a serialized record, every optional field emitted as
    soon as it is set. *)
Definition layout_when_set (t : Todo) : str :=
  (if completed t then js "x " else [])
  ++ match priority t with Some p => js "(" ++ p ++ js ") " | None => [] end
  ++ (if completed t
      then match completionDate t with Some d => d ++ js " " | None => [] end
      else [])
  ++ match creationDate t with Some d => d ++ js " " | None => [] end
  ++ description t.

(** The same layout with the source's truthiness tests: an optional field
    is emitted when it is set to a non-empty string. *)
Definition layout_when_truthy (t : Todo) : str :=
  (if completed t then js "x " else [])
  ++ match priority t with
     | Some (c :: p) => js "(" ++ (c :: p) ++ js ") "
     | _ => []
     end
  ++ (if completed t
      then match completionDate t with
           | Some (c :: d) => (c :: d) ++ js " "
           | _ => []
           end
      else [])
  ++ match creationDate t with
     | Some (c :: d) => (c :: d) ++ js " "
     | _ => []
     end
  ++ description t.

(** The whitespace-delimited tokens of a string, left to right.  A token
    starts on a non-whitespace code unit that is at index 0 or follows a
    whitespace code unit ([boundary]), and runs up to the next whitespace. *)
Fixpoint words_from (boundary : bool) (s : str) : list str :=
  match s with
  | [] => []
  | c :: r =>
      (if boundary && negb (is_space c) then [nonspace_run (c :: r)] else [])
      ++ words_from (is_space c) r
  end.

Definition words (s : str) : list str := words_from true s.

(** The annotation found at index [i] of [s], if any: [s] has the sigil at
    [i], index [i] is 0 or follows a whitespace code unit, and the greedy
    non-whitespace run after the sigil is not empty. *)
Definition annotation_at (sigil : char) (s : str) (i : nat) : option str :=
  if bool_decide (s !! i = Some sigil)
     && match i with
        | O => true
        | S j => from_option is_space false (s !! j)
        end
  then match nonspace_run (drop (S i) s) with
       | [] => None
       | run => Some run
       end
  else None.

(** The annotations of [s] by increasing index, duplicates kept. *)
Definition annotations_spec (sigil : char) (s : str) : list str :=
  omap (annotation_at sigil s) (seq 0 (length s)).

(** The same, computed in one pass; [boundary] tells whether the current
    index is 0 or follows a whitespace code unit. *)
Fixpoint annotations_from (sigil : char) (boundary : bool) (s : str)
  : list str :=
  match s with
  | [] => []
  | c :: r =>
      (if boundary && (c =? sigil)%N
       then match nonspace_run r with
            | [] => []
            | run => [run]
            end
       else [])
      ++ annotations_from sigil (is_space c) r
  end.

(** Whether the index just after [pre] is 0 or follows whitespace. *)
Definition boundary_after (pre : str) : bool :=
  from_option is_space true (last pre).

(** The part of a string before its first colon. *)
Fixpoint before_colon (s : str) : str :=
  match s with
  | [] => []
  | c :: r => if (c =? COLON)%N then [] else c :: before_colon r
  end.

(** A string split at its first colon; the value must be non-empty. *)
Definition split_at_colon (s : str) : option (str * str) :=
  let k := before_colon s in
  match drop (length k) s with
  | _ :: v1 :: v => Some (k, v1 :: v)
  | _ => None
  end.

(** A token split at its first colon: non-empty key, non-empty value. *)
Definition split_first_colon (w : str) : option (str * str) :=
  match split_at_colon w with
  | Some (k1 :: k, v) => Some (k1 :: k, v)
  | _ => None
  end.

(** A token split at the first colon found after its first code unit; the
    value must be non-empty. *)
Definition split_token (w : str) : option (str * str) :=
  match w with
  | [] => None
  | c :: r =>
      match split_at_colon r with
      | Some (k, v) => Some (c :: k, v)
      | None => None
      end
  end.

(** The tag of a token, for a way to split it: tokens that begin with [+]
    or [@] carry none. *)
Definition tag_of_token (split : str -> option (str * str)) (w : str)
  : option (str * str) :=
  if startsWith [PLUS] w || startsWith [AT] w then None else split w.

(** The key/value pairs of a string, token by token, left to right. *)
Definition tag_pairs (split : str -> option (str * str)) (s : str)
  : list (str * str) :=
  omap (tag_of_token split) (words s).

(** The value of the last pair with the given key. *)
Definition last_value (key : str) (pairs : list (str * str)) : option str :=
  foldl (fun acc kv => if decide (kv.1 = key) then Some kv.2 else acc)
    None pairs.

(** A string without whitespace. *)
Definition is_token (w : str) : Prop := nonspace_run w = w.

(** [x] is [y], or starts with a digit or an opening parenthesis. *)
Definition same_start (x y : str) : Prop :=
  x = y \/ exists c a, x = c :: a /\ (is_digit c = true \/ c = LPAREN).

(** What the annotation scans and the tag scan compute from a token:
    nothing on a date token. *)
Definition blind_to_dates {A} (f : str -> option A) : Prop :=
  forall d, date_format d = true -> f d = None.

(** The lines of a buffer that [parseTodoTxt] keeps. *)
Definition nonblank_lines (text : str) : list str :=
  List.filter (fun line => (0 <? length (trim line))%nat) (split_lines text).

(** Each kept line, parsed and serialized again. *)
Definition canonical_lines (text : str) : list str :=
  (fun line => serializeTodo (parseTodoLine line)) <$> nonblank_lines text.

(** The shapes of the consumed prefixes, by the value of the field each
    one sets. *)
Definition completion_prefix (done_ : bool) (c : str) : Prop :=
  if done_
  then exists lead, c = js "x " ++ lead /\ forallb is_space lead = true
  else c = [].

Definition priority_prefix (prio : option str) (p : str) : Prop :=
  match prio with
  | Some q =>
      exists l w, q = [l] /\ p = [LPAREN; l; RPAREN; w]
                  /\ is_upper l = true /\ is_space w = true
  | None => p = []
  end.

Definition date_prefix (done_ : bool) (cd crd : option str) (d : str) : Prop :=
  match cd, crd with
  | None, None => d = []
  | Some a, None =>
      done_ = true
      /\ exists w, d = a ++ [w] /\ date_format a = true /\ is_space w = true
  | None, Some a =>
      done_ = false
      /\ exists w, d = a ++ [w] /\ date_format a = true /\ is_space w = true
  | Some a, Some b =>
      exists w1 w2, d = a ++ w1 :: b ++ [w2]
                    /\ date_format a = true /\ is_space w1 = true
                    /\ date_format b = true /\ is_space w2 = true
  end.

(** The invariants of the data model on a record: the priority is one
    ASCII capital, the dates have the date format, projects and contexts
    are non-empty and free of whitespace, the description ends the trimmed
    raw line. *)
Definition well_formed (t : Todo) : Prop :=
  match priority t with
  | Some p => exists l, p = [l] /\ is_upper l = true
  | None => True
  end
  /\ match completionDate t with
     | Some d => date_format d = true
     | None => True
     end
  /\ match creationDate t with
     | Some d => date_format d = true
     | None => True
     end
  /\ Forall (fun p => is_token p /\ p <> []) (projects t)
  /\ Forall (fun c => is_token c /\ c <> []) (contexts t)
  /\ description t `suffix_of` trim (raw t).

(** ** Notions used for whole buffers *)

(** A record parsed back from its own serialization. *)
Definition reparsed (t : Todo) : Todo := parseTodoLine (serializeTodo t).

(** A text that is exactly one non-blank line. *)
Definition one_line (s : str) : Prop := (LF ∉ s) /\ trim s <> [].

(** Two records that agree on every field but [raw]. *)
Definition same_fields (t u : Todo) : Prop :=
  completed t = completed u /\ priority t = priority u
  /\ completionDate t = completionDate u /\ creationDate t = creationDate u
  /\ description t = description u /\ projects t = projects u
  /\ contexts t = contexts u /\ tags t = tags u.

(** A record on which [serializeTodo] writes every date it holds. *)
Definition dates_kept (t : Todo) : Prop :=
  completed t = true \/ completionDate t = None.

(** A token function that finds nothing in the tokens the prefix grammar
    consumes: the completion mark, a priority, a date. *)
Definition blind_to_prefixes {A} (f : str -> option A) : Prop :=
  f [LOWER_X] = None
  /\ (forall l, is_upper l = true -> f [LPAREN; l; RPAREN] = None)
  /\ blind_to_dates f.

(** A description that [parseTodoLine] takes whole: trimmed, not empty,
    and starting with neither the completion mark, a priority nor a
    date. *)
Definition plain_text (s : str) : Prop :=
  s <> [] /\ trim s = s /\ startsWith (js "x ") s = false
  /\ priority_exec s = None /\ date_exec s = None.

(** A record that [serializeTodo] writes in full: a capital as priority,
    dates in date format, no completion date on an uncompleted record, no
    creation date alone on a completed one, a plain description. *)
Definition writable (t : Todo) : Prop :=
  match priority t with
  | Some p => exists l, p = [l] /\ is_upper l = true
  | None => True
  end
  /\ match completionDate t with
     | Some d => date_format d = true
     | None => True
     end
  /\ match creationDate t with
     | Some d => date_format d = true
     | None => True
     end
  /\ dates_kept t
  /\ (completed t = true -> completionDate t = None -> creationDate t = None)
  /\ plain_text (description t).

(** ** Concrete inputs *)

Definition TAB : char := 9%N.
Definition line_priority_tab : str := js "(A)" ++ TAB :: js "Task".
Definition line_date_tab : str := js "2024-01-01" ++ TAB :: js "Task".
Definition line_x_two_spaces : str := js "x  Task".

(** Near misses of the priority prefix: lower case, digit, non-ASCII
    capital (U+00C1), two letters, empty, space inside, no space after. *)
Definition priority_near_misses : list str :=
  [js "(a) t"; js "(1) t"; [LPAREN; 193%N; RPAREN; SP; 116%N]; js "(AA) t";
   js "() t"; js "( A) t"; js "(A)t"].

(** Records used as concrete inputs. *)
Definition todo_empty_priority : Todo :=
  {| completed := false; priority := Some []; completionDate := None;
     creationDate := None; description := js "T"; projects := [];
     contexts := []; tags := ∅; raw := js "T" |}.

Definition todo_new : Todo :=
  {| completed := false; priority := None; completionDate := None;
     creationDate := None; description := js "NEW"; projects := [];
     contexts := []; tags := ∅; raw := [] |}.

(** A buffer with a non-canonical completed line, a blank line, a line
    with outer whitespace and a last line. *)
Definition buffer_untidy : str :=
  join_lines [js "x  Task"; []; js "  keep  "; js "last"].

Definition line_double_colon : str := js "Task ::v".
Definition line_two_dates_open : str := js "2024-01-01 2024-01-02 foo".
Definition line_full : str :=
  js "x (A) 2024-01-02 2024-01-01 Call +p @c k:v".

(** * Properties *)

#[local] Arguments N.eqb : simpl never.
#[local] Arguments N.leb : simpl never.
#[local] Arguments js : simpl never.

(** Right-nest every concatenation. *)
Ltac app_norm :=
  repeat (progress (rewrite <- ?app_assoc; cbn [app])).

(** ** Character classes *)

Lemma is_space_cases (c : char) :
  is_space c = true ->
  ((9 <= c <= 13) \/ c = 32 \/ c = 160 \/ c = 5760 \/ (8192 <= c <= 8202)
   \/ c = 8232 \/ c = 8233 \/ c = 8239 \/ c = 8287 \/ c = 12288
   \/ c = 65279)%N.
Proof.
  unfold is_space.
  rewrite !orb_true_iff, !andb_true_iff, !N.eqb_eq, !N.leb_le. tauto.
Qed.

Lemma space_not_digit (c : char) : is_space c = true -> is_digit c = false.
Proof.
  intros H%is_space_cases. unfold is_digit.
  apply andb_false_iff. rewrite !N.leb_gt. lia.
Qed.

Lemma digit_not_space (c : char) : is_digit c = true -> is_space c = false.
Proof.
  intros H. destruct (is_space c) eqn:E; [|done].
  apply space_not_digit in E. congruence.
Qed.

Lemma space_neqb (c k : char) :
  is_space k = false -> is_space c = true -> (c =? k)%N = false.
Proof.
  intros Hk Hc. apply N.eqb_neq. intros ->. congruence.
Qed.

Lemma upper_not_space (c : char) : is_upper c = true -> is_space c = false.
Proof.
  unfold is_upper. rewrite andb_true_iff, !N.leb_le. intros [H1 H2].
  destruct (is_space c) eqn:E; [|done].
  apply is_space_cases in E. lia.
Qed.

(** ** [trim] *)

Lemma trimStart_split (s : str) :
  exists lead, s = lead ++ trimStart s /\ forallb is_space lead = true.
Proof.
  induction s as [|c r [lead [E H]]]; simpl.
  - by exists [].
  - destruct (is_space c) eqn:Hc.
    + exists (c :: lead). simpl. rewrite Hc, H. split; [by f_equal|done].
    + by exists [].
Qed.

Lemma trimStart_no_lead (s : str) : no_lead (trimStart s).
Proof.
  induction s as [|c r IH]; simpl; [done|].
  destruct (is_space c) eqn:Hc; [done|]. exact Hc.
Qed.

Lemma trimStart_id (s : str) : no_lead s -> trimStart s = s.
Proof. destruct s as [|c r]; simpl; [done|]. by intros ->. Qed.

Lemma trimEnd_cons (c : char) (r : str) :
  trimEnd r <> [] -> trimEnd (c :: r) = c :: trimEnd r.
Proof. simpl. by destruct (trimEnd r). Qed.

Lemma trimEnd_all_space (s : str) :
  forallb is_space s = true -> trimEnd s = [].
Proof.
  induction s as [|c r IH]; simpl; [done|].
  intros [Hc Hr]%andb_true_iff. by rewrite IH, Hc.
Qed.

Lemma trimEnd_no_trail (s : str) : no_trail (trimEnd s).
Proof.
  unfold no_trail. induction s as [|c r IH]; simpl; [done|].
  destruct (trimEnd r) as [|d r'] eqn:E.
  - destruct (is_space c) eqn:Hc; simpl; [done|]. by rewrite Hc.
  - simpl in *. rewrite IH. done.
Qed.

Lemma no_trail_cons_inv (c : char) (r : str) :
  no_trail (c :: r) -> r <> [] -> no_trail r.
Proof.
  unfold no_trail. simpl. destruct (trimEnd r) as [|d r'] eqn:E.
  - destruct (is_space c); intros H Hr; simplify_eq.
  - intros H _. by simplify_eq.
Qed.

Lemma no_trail_single (c : char) : no_trail [c] -> is_space c = false.
Proof. unfold no_trail. simpl. by destruct (is_space c). Qed.

Lemma no_trail_app_inv (a b : str) :
  no_trail (a ++ b) -> b <> [] -> no_trail b.
Proof.
  induction a as [|c a IH]; simpl; [done|].
  intros H Hb. apply IH; [|done].
  apply (no_trail_cons_inv c); [done|]. by destruct a, b.
Qed.

Lemma no_trail_cons (c : char) (r : str) :
  no_trail r -> r <> [] -> no_trail (c :: r).
Proof.
  unfold no_trail. intros H Hr. rewrite trimEnd_cons; rewrite H; done.
Qed.

Lemma no_trail_app (a b : str) :
  no_trail b -> b <> [] -> no_trail (a ++ b).
Proof.
  intros Hb Hne. induction a as [|c a IH]; simpl; [done|].
  apply no_trail_cons; [done|]. by destruct a, b.
Qed.

(** A string without trailing whitespace does not end right after a
    whitespace character. *)
Lemma no_trail_after_space (a : str) (w : char) (r : str) :
  no_trail (a ++ w :: r) -> is_space w = true -> r <> [] /\ no_trail r.
Proof.
  intros H Hw.
  assert (Hwr : no_trail (w :: r)) by (by apply (no_trail_app_inv a)).
  destruct r as [|d r].
  - apply no_trail_single in Hwr. congruence.
  - split; [done|]. by apply (no_trail_cons_inv w).
Qed.

Lemma trimEnd_no_lead (s : str) : no_lead s -> no_lead (trimEnd s).
Proof.
  destruct s as [|c r]; simpl; [done|]. intros Hc.
  destruct (trimEnd r); [by rewrite Hc|done].
Qed.

Lemma trim_no_lead (s : str) : no_lead (trim s).
Proof. apply trimEnd_no_lead, trimStart_no_lead. Qed.

Lemma trim_no_trail (s : str) : no_trail (trim s).
Proof. apply trimEnd_no_trail. Qed.

Lemma trim_id (s : str) : no_lead s -> no_trail s -> trim s = s.
Proof. intros Hl Ht. unfold trim. by rewrite trimStart_id. Qed.

(** Trimming a string without trailing whitespace only removes a leading
    run of whitespace. *)
Lemma trim_split (s : str) :
  no_trail s ->
  exists lead, s = lead ++ trim s /\ forallb is_space lead = true.
Proof.
  intros Hs. destruct (trimStart_split s) as [lead [E H]].
  exists lead. split; [|done]. unfold trim.
  destruct (trimStart s) as [|c r] eqn:Ets.
  - by rewrite E at 1.
  - assert (no_trail (c :: r)) as ->; [|done].
    apply (no_trail_app_inv lead); [by rewrite <- E|done].
Qed.

(** ** The prefix grammar of [parseTodoLine] *)

Lemma priority_exec_some (p w : char) (r : str) :
  is_upper p = true -> is_space w = true ->
  priority_exec (LPAREN :: p :: RPAREN :: w :: r)
  = Some [[LPAREN; p; RPAREN; w]; [p]].
Proof. intros Hp Hw. simpl. by rewrite Hp, Hw. Qed.

Lemma priority_exec_inv (s : str) (m : list str) :
  priority_exec s = Some m ->
  exists p w r, s = LPAREN :: p :: RPAREN :: w :: r /\ is_upper p = true
                /\ is_space w = true /\ m = [[LPAREN; p; RPAREN; w]; [p]].
Proof.
  destruct s as [|a [|p [|b [|w r]]]]; try done. simpl.
  destruct (a =? LPAREN)%N eqn:Ha; [|done].
  destruct (is_upper p) eqn:Hp; [|done].
  destruct (b =? RPAREN)%N eqn:Hb; [|done].
  destruct (is_space w) eqn:Hw; [|done].
  apply N.eqb_eq in Ha, Hb. subst. intros [= <-]. by exists p, w, r.
Qed.

Lemma priority_exec_none (s : str) :
  priority_exec s = None <-> ~ starts_with_priority s.
Proof.
  split.
  - intros H (p & w & r & -> & Hp & Hw).
    by rewrite priority_exec_some in H.
  - intros H. destruct (priority_exec s) as [m|] eqn:E; [|done].
    destruct H. apply priority_exec_inv in E as (p & w & r & ? & ? & ? & _).
    by exists p, w, r.
Qed.

Lemma parse_priority_some (p w : char) (r : str) :
  is_upper p = true -> is_space w = true ->
  parse_priority (LPAREN :: p :: RPAREN :: w :: r) = (Some [p], r).
Proof.
  intros Hp Hw. unfold parse_priority. by rewrite priority_exec_some.
Qed.

Lemma parse_priority_none (s : str) :
  ~ starts_with_priority s -> parse_priority s = (None, s).
Proof.
  intros H%priority_exec_none. unfold parse_priority. by rewrite H.
Qed.

Lemma starts_with_priority_dec (s : str) :
  starts_with_priority s \/ ~ starts_with_priority s.
Proof.
  destruct (priority_exec s) as [m|] eqn:E.
  - left. apply priority_exec_inv in E as (p & w & r & ? & ? & ? & _).
    by exists p, w, r.
  - right. by apply priority_exec_none.
Qed.

Lemma date_format_inv (d : str) :
  date_format d = true ->
  exists y1 y2 y3 y4 m1 m2 d1 d2,
    d = [y1; y2; y3; y4; MINUS; m1; m2; MINUS; d1; d2]
    /\ is_digit y1 = true /\ is_digit y2 = true /\ is_digit y3 = true
    /\ is_digit y4 = true /\ is_digit m1 = true /\ is_digit m2 = true
    /\ is_digit d1 = true /\ is_digit d2 = true.
Proof.
  unfold date_format. intros H.
  do 10 (destruct d as [|? d]; [done|]). destruct d; [|done].
  simpl in H. rewrite !andb_true_iff, !bool_decide_eq_true in H.
  destruct H as [[[[(?&?&?&?&_) [= ->]] (?&?&_)] [= ->]] (?&?&_)].
  by repeat eexists.
Qed.

Lemma date_exec_some (d : str) (w : char) (r : str) :
  date_format d = true -> is_space w = true ->
  date_exec (d ++ w :: r) = Some [d ++ [w]; d].
Proof.
  intros (y1&y2&y3&y4&m1&m2&d1&d2&->&H1&H2&H3&H4&H5&H6&H7&H8)%date_format_inv
    Hw.
  simpl. by rewrite H1, H2, H3, H4, H5, H6, H7, H8, Hw.
Qed.

Lemma date_exec_inv (s : str) (m : list str) :
  date_exec s = Some m ->
  exists d w r, s = d ++ w :: r /\ date_format d = true
                /\ is_space w = true /\ m = [d ++ [w]; d].
Proof.
  unfold date_exec.
  do 11 (destruct s as [|? s]; [done|]).
  match goal with |- (if ?b then _ else _) = _ -> _ => destruct b eqn:E end;
    [|done].
  rewrite !andb_true_iff, !N.eqb_eq in E.
  destruct E as [[[[[[[[[[? ?] ?] ?] ->] ?] ?] ->] ?] ?] ?].
  intros [= <-].
  eexists [_; _; _; _; _; _; _; _; _; _], _, s.
  split; [reflexivity|]. split; [|done].
  unfold date_format. simpl. rewrite ?andb_true_iff, ?bool_decide_eq_true.
  naive_solver.
Qed.

Lemma date_exec_none (s : str) :
  date_exec s = None <-> ~ starts_with_date s.
Proof.
  split.
  - intros H (d & w & r & -> & Hd & Hw). by rewrite date_exec_some in H.
  - intros H. destruct (date_exec s) as [m|] eqn:E; [|done].
    destruct H. apply date_exec_inv in E as (d & w & r & ? & ? & ? & _).
    by exists d, w, r.
Qed.

Lemma drop_date (d : str) (w : char) (r : str) :
  date_format d = true -> drop (length (d ++ [w])) (d ++ w :: r) = r.
Proof.
  intros H. rewrite (assoc_L _ d [w] r : d ++ w :: r = (d ++ [w]) ++ r).
  by rewrite drop_app_length.
Qed.

Lemma parse_dates_two (b : bool) (d1 d2 : str) (w1 w2 : char) (r : str) :
  date_format d1 = true -> is_space w1 = true ->
  date_format d2 = true -> is_space w2 = true ->
  parse_dates b (d1 ++ w1 :: d2 ++ w2 :: r) = (Some d1, Some d2, r).
Proof.
  intros H1 Hw1 H2 Hw2. unfold parse_dates.
  rewrite date_exec_some by done. simpl default.
  rewrite drop_date by done. rewrite date_exec_some by done. simpl.
  by rewrite drop_date.
Qed.

Lemma parse_dates_one (b : bool) (d : str) (w : char) (r : str) :
  date_format d = true -> is_space w = true -> ~ starts_with_date r ->
  parse_dates b (d ++ w :: r)
  = if b then (Some d, None, r) else (None, Some d, r).
Proof.
  intros H Hw Hr%date_exec_none. unfold parse_dates.
  rewrite date_exec_some by done. simpl default.
  rewrite drop_date by done. by rewrite Hr.
Qed.

Lemma parse_dates_zero (b : bool) (s : str) :
  ~ starts_with_date s -> parse_dates b s = (None, None, s).
Proof. intros H%date_exec_none. unfold parse_dates. by rewrite H. Qed.

Lemma starts_with_date_dec (s : str) :
  starts_with_date s \/ ~ starts_with_date s.
Proof.
  destruct (date_exec s) as [m|] eqn:E.
  - left. apply date_exec_inv in E as (d & w & r & ? & ? & ? & _).
    by exists d, w, r.
  - right. by apply date_exec_none.
Qed.

(** The fields of a parsed record in terms of the blocks of the parser. *)
Lemma parseTodoLine_fields (line : str) :
  let t := parseTodoLine line in
  completed t = startsWith (js "x ") (trim line)
  /\ priority t = (parse_priority (remaining_after_completion line)).1
  /\ (completionDate t, creationDate t, description t)
     = parse_dates (completed t) (remaining_after_priority line)
  /\ projects t
     = collect_annotations (matchAll (annotation_exec PLUS) (trim line))
  /\ contexts t
     = collect_annotations (matchAll (annotation_exec AT) (trim line))
  /\ tags t = collect_tags (matchAll tag_exec (trim line))
  /\ raw t = line.
Proof.
  unfold parseTodoLine, remaining_after_priority, remaining_after_completion.
  cbv zeta.
  destruct (parse_priority _) as [p r1]. cbn [fst snd].
  destruct (parse_dates _ r1) as [[cd crd] r2] eqn:E.
  cbn [completed priority completionDate creationDate description projects
       contexts tags raw].
  by rewrite E.
Qed.

Lemma startsWith_x_inv (s : str) :
  startsWith (js "x ") s = true -> exists r, s = LOWER_X :: SP :: r.
Proof.
  change (js "x ") with [LOWER_X; SP].
  destruct s as [|a [|b r]]; simpl; rewrite ?andb_false_r; try done.
  rewrite !andb_true_iff, !N.eqb_eq. intros (<- & <- & _). by exists r.
Qed.

Lemma startsWith_x (r : str) : startsWith (js "x ") (LOWER_X :: SP :: r) = true.
Proof. done. Qed.

(** How [parseTodoLine] cuts the trimmed line: the completion mark with
    the whitespace after it, the priority, the dates, the description. *)
Lemma completion_shape (line : str) :
  let t := parseTodoLine line in
  let r0 := remaining_after_completion line in
  (completed t = true
   /\ (exists lead, trim line = js "x " ++ lead ++ r0
                    /\ forallb is_space lead = true)
   /\ no_lead r0 /\ no_trail r0 /\ r0 <> [])
  \/ (completed t = false /\ trim line = r0
      /\ startsWith (js "x ") r0 = false /\ no_lead r0 /\ no_trail r0).
Proof.
  destruct (parseTodoLine_fields line) as (Hc & _).
  cbv zeta. rewrite Hc. unfold remaining_after_completion. cbv zeta.
  pose proof (trim_no_lead line) as Hl. pose proof (trim_no_trail line) as Ht.
  destruct (startsWith (js "x ") (trim line)) eqn:E; [left|right].
  - apply startsWith_x_inv in E as [rest E]. rewrite E in *.
    unfold after_completion.
    change (drop 2 (LOWER_X :: SP :: rest)) with rest.
    destruct (no_trail_after_space [LOWER_X] SP rest Ht eq_refl) as [Hne Hnt].
    destruct (trim_split rest Hnt) as (lead & Hrest & Hlead).
    split; [done|]. split.
    + exists lead. by rewrite Hrest at 1.
    + split; [apply trim_no_lead|]. split; [apply trim_no_trail|].
      intros Hnil. rewrite Hnil, app_nil_r in Hrest. subst rest.
      apply Hne. destruct lead as [|w lead]; [done|].
      apply trimEnd_all_space in Hlead. by rewrite Hnt in Hlead.
  - by unfold after_completion.
Qed.

Lemma priority_shape (line : str) :
  let t := parseTodoLine line in
  let r0 := remaining_after_completion line in
  let r1 := remaining_after_priority line in
  (exists l w, r0 = LPAREN :: l :: RPAREN :: w :: r1 /\ is_upper l = true
               /\ is_space w = true /\ priority t = Some [l])
  \/ (priority t = None /\ r1 = r0 /\ ~ starts_with_priority r0).
Proof.
  destruct (parseTodoLine_fields line) as (_ & Hp & _).
  cbv zeta. rewrite Hp. unfold remaining_after_priority.
  destruct (starts_with_priority_dec (remaining_after_completion line))
    as [(l & w & r & E & Hl & Hw)|Hno].
  - left. exists l, w. rewrite E, parse_priority_some by done. done.
  - right. by rewrite parse_priority_none.
Qed.

Lemma dates_shape (line : str) :
  let t := parseTodoLine line in
  let r1 := remaining_after_priority line in
  (exists d1 w1 d2 w2,
      r1 = d1 ++ w1 :: d2 ++ w2 :: description t
      /\ date_format d1 = true /\ is_space w1 = true
      /\ date_format d2 = true /\ is_space w2 = true
      /\ completionDate t = Some d1 /\ creationDate t = Some d2)
  \/ (exists d w,
        r1 = d ++ w :: description t
        /\ date_format d = true /\ is_space w = true
        /\ ~ starts_with_date (description t)
        /\ completionDate t = (if completed t then Some d else None)
        /\ creationDate t = (if completed t then None else Some d))
  \/ (r1 = description t /\ ~ starts_with_date r1
      /\ completionDate t = None /\ creationDate t = None).
Proof.
  destruct (parseTodoLine_fields line) as (_ & _ & Hd & _).
  cbv zeta. revert Hd.
  generalize (completionDate (parseTodoLine line))
    (creationDate (parseTodoLine line)) (description (parseTodoLine line))
    (completed (parseTodoLine line)).
  intros cd crd desc b.
  destruct (starts_with_date_dec (remaining_after_priority line))
    as [(d1 & w1 & r & E & H1 & Hw1)|Hno].
  - destruct (starts_with_date_dec r) as [(d2 & w2 & r' & E' & H2 & Hw2)|Hno].
    + rewrite E, E', parse_dates_two by done. intros [= -> -> ->].
      left. by exists d1, w1, d2, w2.
    + rewrite E, parse_dates_one by done. right; left. exists d1, w1.
      destruct b; simplify_eq; done.
  - rewrite parse_dates_zero by done. intros [= -> -> ->]. by right; right.
Qed.

(** ** Serialization layout *)

(** The layout with the source's truthiness tests, for every record. *)
Lemma serializeTodo_truthy (t : Todo) :
  serializeTodo t = layout_when_truthy t.
Proof.
  unfold serializeTodo, layout_when_truthy.
  destruct (completed t), (priority t) as [[|? ?]|],
    (completionDate t) as [[|? ?]|], (creationDate t) as [[|? ?]|];
    cbn [truthy andb default from_option id]; cbv zeta;
    rewrite ?app_nil_l, <- ?app_assoc; reflexivity.
Qed.

(** The two layouts agree unless an optional field is the empty string. *)
Lemma layout_truthy_set (t : Todo) :
  priority t <> Some [] -> completionDate t <> Some [] ->
  creationDate t <> Some [] ->
  layout_when_truthy t = layout_when_set t.
Proof.
  unfold layout_when_truthy, layout_when_set. intros Hp Hcd Hcrd.
  by destruct (priority t) as [[|? ?]|], (completionDate t) as [[|? ?]|],
    (creationDate t) as [[|? ?]|].
Qed.

(** The empty string is no value of an optional field: a priority is a
    capital and a date is a date string.  The source tests the fields
    for truthiness, so a field holding the empty string is written like
    an unset one; this is why [serializeTodo_layout] supposes that the
    fields hold values. *)
Lemma serialize_empty_priority_not_emitted :
  serializeTodo todo_empty_priority <> layout_when_set todo_empty_priority.
Proof. vm_compute. discriminate. Qed.

(** C2: for every record whose optional fields are unset or hold a value
    (a non-empty string), [serializeTodo] emits exactly, in this order,
    ["x "] when completed, ["(P) "] when the priority is set, the
    completion date and a space only when completed and the completion
    date is set, the creation date and a space whenever it is set,
    whatever [completed] is, then the description and nothing else. *)
Theorem serializeTodo_layout (t : Todo) :
  priority t <> Some [] -> completionDate t <> Some [] ->
  creationDate t <> Some [] ->
  serializeTodo t = layout_when_set t.
Proof.
  intros Hp Hcd Hcrd. rewrite serializeTodo_truthy.
  by apply layout_truthy_set.
Qed.

(** [serializeTodo_layout] on a completed record with a priority and both
    dates: the mark, the priority, the completion date, the creation date
    and the description, in this order. *)
Lemma serializeTodo_layout_witness :
  serializeTodo (parseTodoLine line_full)
  = js "x " ++ js "(A) " ++ js "2024-01-02 " ++ js "2024-01-01 "
    ++ js "Call +p @c k:v".
Proof.
  rewrite (serializeTodo_layout (parseTodoLine line_full)).
  - vm_compute. reflexivity.
  - vm_compute. discriminate.
  - vm_compute. discriminate.
  - vm_compute. discriminate.
Defined.

(** ** Priority *)

(** C4, as stated, fails: a TAB after the closing parenthesis is accepted
    by [\s], the priority is recorded and the prefix consumed. *)
Lemma priority_tab_is_recorded :
  ~ (priority (parseTodoLine line_priority_tab) = None
     /\ description (parseTodoLine line_priority_tab) = line_priority_tab).
Proof. vm_compute. intros [? _]. discriminate. Qed.

(** C4, amended: a priority is recorded exactly when the text that
    remains after the completion mark, trimmed again, starts with ["("],
    one ASCII capital, [")"] and one whitespace code unit (a space, a TAB
    or any other code unit of [\s]); the letter is then the priority and
    these four code units are consumed.  When the text has no such start
    the priority stays unset and nothing is consumed; this covers lower
    case, digit, non-ASCII letter, several letters, empty parentheses,
    space inside and no whitespace after. *)
Theorem priority_prefix_rule (line : str) :
  let t := parseTodoLine line in
  let r0 := remaining_after_completion line in
  (forall l w r,
      r0 = LPAREN :: l :: RPAREN :: w :: r ->
      is_upper l = true -> is_space w = true ->
      priority t = Some [l] /\ remaining_after_priority line = r)
  /\ (~ starts_with_priority r0 ->
      priority t = None /\ remaining_after_priority line = r0)
  /\ (priority t <> None <-> starts_with_priority r0)
  /\ (forall p,
        priority t = Some p ->
        exists l w,
          p = [l] /\ is_upper l = true /\ is_space w = true
          /\ r0 = LPAREN :: l :: RPAREN :: w :: remaining_after_priority line)
  /\ Forall (fun l => priority (parseTodoLine l) = None
                      /\ description (parseTodoLine l) = l)
       priority_near_misses
  /\ priority (parseTodoLine (js "x  (A) Task")) = Some (js "A")
  /\ priority (parseTodoLine line_priority_tab) = Some (js "A")
  /\ description (parseTodoLine line_priority_tab) = js "Task".
Proof.
  cbv zeta. destruct (priority_shape line)
    as [(l & w & E & Hl & Hw & Hp)|(Hp & E & Hno)].
  - split; [|split; [|split; [|split; [|split]]]].
    + intros l' w' r' E' _ _. rewrite E in E'. by simplify_eq.
    + intros []. by exists l, w, (remaining_after_priority line).
    + split; [|by rewrite Hp].
      intros _. by exists l, w, (remaining_after_priority line).
    + intros p Hp'. rewrite Hp in Hp'. simplify_eq. by exists l, w.
    + repeat constructor; vm_compute; done.
    + by vm_compute.
  - split; [|split; [|split; [|split; [|split]]]].
    + intros l' w' r' E' Hl' Hw'. destruct Hno. by exists l', w', r'.
    + done.
    + split; [by rewrite Hp|done].
    + intros p Hp'. by rewrite Hp in Hp'.
    + repeat constructor; vm_compute; done.
    + by vm_compute.
Qed.

(** [priority_prefix_rule] on ["(A) Call Mom"]: the letter is recorded and
    the four code units of the prefix are consumed. *)
Lemma priority_prefix_rule_witness :
  priority (parseTodoLine (js "(A) Call Mom")) = Some (js "A")
  /\ remaining_after_priority (js "(A) Call Mom") = js "Call Mom".
Proof.
  apply (proj1 (priority_prefix_rule (js "(A) Call Mom")) 65%N SP).
  - vm_compute. reflexivity.
  - vm_compute. reflexivity.
  - vm_compute. reflexivity.
Defined.

(** ** Dates *)

(** C3, as stated, fails: a date followed by a TAB instead of a space is
    matched by [\s] and becomes the creation date. *)
Lemma date_tab_is_matched :
  ~ (completionDate (parseTodoLine line_date_tab) = None
     /\ creationDate (parseTodoLine line_date_tab) = None).
Proof. vm_compute. intros [_ ?]. discriminate. Qed.

(** C3, amended: dates are matched only at the parse position reached
    after the completion mark (with the whitespace after it) and the
    priority.  A date is 4 digits, [-], 2 digits, [-], 2 digits, without
    calendar check; it is matched exactly when one whitespace code unit
    follows it (a space, a TAB or any other code unit of [\s]).  Two dates
    in a row: the first is the completion date and the second the
    creation date, whatever [completed] is.  One date: completion date
    when completed, creation date otherwise.  No date: both unset.  In
    each case the description is what follows. *)
Theorem date_prefix_rule (line : str) :
  let t := parseTodoLine line in
  let r1 := remaining_after_priority line in
  (forall d1 w1 d2 w2 r,
      r1 = d1 ++ w1 :: d2 ++ w2 :: r ->
      date_format d1 = true -> is_space w1 = true ->
      date_format d2 = true -> is_space w2 = true ->
      completionDate t = Some d1 /\ creationDate t = Some d2
      /\ description t = r)
  /\ (forall d w r,
        r1 = d ++ w :: r ->
        date_format d = true -> is_space w = true ->
        ~ starts_with_date r ->
        completionDate t = (if completed t then Some d else None)
        /\ creationDate t = (if completed t then None else Some d)
        /\ description t = r)
  /\ (~ starts_with_date r1 ->
      completionDate t = None /\ creationDate t = None
      /\ description t = r1)
  /\ (completionDate t <> None \/ creationDate t <> None
      <-> starts_with_date r1)
  /\ (forall d,
        completionDate t = Some d \/ creationDate t = Some d ->
        date_format d = true)
  /\ date_format (js "2024-13-45") = true
  /\ creationDate (parseTodoLine (js "2024-13-45 Task"))
     = Some (js "2024-13-45")
  /\ completionDate (parseTodoLine (js "Task 2024-01-15 middle")) = None
  /\ creationDate (parseTodoLine (js "Task 2024-01-15 middle")) = None
  /\ completionDate (parseTodoLine (js "x  2024-01-01 Task"))
     = Some (js "2024-01-01")
  /\ creationDate (parseTodoLine line_date_tab) = Some (js "2024-01-01")
  /\ completionDate
       (parseTodoLine (js "2024-01-01 2024-01-02" ++ TAB :: js "Task"))
     = Some (js "2024-01-01")
  /\ creationDate
       (parseTodoLine (js "2024-01-01 2024-01-02" ++ TAB :: js "Task"))
     = Some (js "2024-01-02").
Proof.
  cbv zeta. destruct (parseTodoLine_fields line) as (_ & _ & Hd & _).
  split; [|split; [|split; [|split; [|split; [|by vm_compute]]]]].
  - intros d1 w1 d2 w2 r E H1 Hw1 H2 Hw2.
    rewrite E, parse_dates_two in Hd by done. by simplify_eq.
  - intros d w r E H Hw Hno.
    rewrite E, parse_dates_one in Hd by done.
    destruct (completed (parseTodoLine line)); by simplify_eq.
  - intros Hno. rewrite parse_dates_zero in Hd by done. by simplify_eq.
  - destruct (dates_shape line)
      as [(d1 & w1 & d2 & w2 & E & H1 & Hw1 & H2 & Hw2 & Hcd & Hcrd)
         |[(d1 & w1 & E & H1 & Hw1 & _ & Hcd & Hcrd)|(_ & Hno & Hcd & Hcrd)]];
      rewrite Hcd, Hcrd.
    + split; [|by left].
      intros _.
      by exists d1, w1, (d2 ++ w2 :: description (parseTodoLine line)).
    + split; [intros _; by exists d1, w1, (description (parseTodoLine line))|].
      intros _. destruct (completed (parseTodoLine line)); [by left|by right].
    + split; [by intros [|]|done].
  - intros d Hset.
    destruct (dates_shape line)
      as [(d1 & w1 & d2 & w2 & E & H1 & Hw1 & H2 & Hw2 & Hcd & Hcrd)
         |[(d1 & w1 & E & H1 & Hw1 & _ & Hcd & Hcrd)|(_ & _ & Hcd & Hcrd)]];
      rewrite Hcd, Hcrd in Hset.
    + by destruct Hset; simplify_eq.
    + destruct (completed (parseTodoLine line)), Hset; by simplify_eq.
    + by destruct Hset.
Qed.

(** [date_prefix_rule] on a completed line with two dates. *)
Lemma date_prefix_rule_witness :
  completionDate (parseTodoLine (js "x 2024-01-02 2024-01-01 Task"))
  = Some (js "2024-01-02")
  /\ creationDate (parseTodoLine (js "x 2024-01-02 2024-01-01 Task"))
     = Some (js "2024-01-01")
  /\ description (parseTodoLine (js "x 2024-01-02 2024-01-01 Task"))
     = js "Task".
Proof.
  apply (proj1 (date_prefix_rule (js "x 2024-01-02 2024-01-01 Task"))
           (js "2024-01-02") SP (js "2024-01-01") SP).
  - vm_compute. reflexivity.
  - vm_compute. reflexivity.
  - vm_compute. reflexivity.
  - vm_compute. reflexivity.
  - vm_compute. reflexivity.
Defined.

(** ** Description *)

(** C5, as stated, fails: after ["x "] the remainder is trimmed again, so
    the second space of ["x  Task"] does not reach the description. *)
Lemma description_after_x_is_trimmed :
  description (parseTodoLine line_x_two_spaces) <> js " Task".
Proof. vm_compute. discriminate. Qed.

(** C5, amended: the trimmed line is the concatenation of the completion
    prefix (["x "] and all the whitespace that follows it, when completed),
    the priority prefix, the date prefix and the description; nothing but
    these prefixes is removed, and the description is not trimmed again
    after the priority or a date. *)
Theorem description_is_remainder (line : str) :
  let t := parseTodoLine line in
  (exists c p d,
      trim line = c ++ p ++ d ++ description t
      /\ completion_prefix (completed t) c
      /\ priority_prefix (priority t) p
      /\ date_prefix (completed t) (completionDate t) (creationDate t) d
      /\ (completed t = true -> no_lead (p ++ d ++ description t)))
  /\ description (parseTodoLine line_x_two_spaces) = js "Task"
  /\ description (parseTodoLine (js "(A)  Task")) = js " Task"
  /\ description (parseTodoLine (js "2024-01-01  Task")) = js " Task".
Proof.
  cbv zeta. split; [|by vm_compute].
  assert (exists p d,
    remaining_after_completion line = p ++ d ++ description (parseTodoLine line)
    /\ priority_prefix (priority (parseTodoLine line)) p
    /\ date_prefix (completed (parseTodoLine line))
         (completionDate (parseTodoLine line))
         (creationDate (parseTodoLine line)) d) as (p & d & E & Hp & Hd).
  { assert (exists d,
      remaining_after_priority line = d ++ description (parseTodoLine line)
      /\ date_prefix (completed (parseTodoLine line))
           (completionDate (parseTodoLine line))
           (creationDate (parseTodoLine line)) d) as (d & Ed & Hd).
    { destruct (dates_shape line)
        as [(d1 & w1 & d2 & w2 & E & H1 & Hw1 & H2 & Hw2 & -> & ->)
           |[(d1 & w1 & E & H1 & Hw1 & _ & -> & ->)|(E & _ & -> & ->)]].
      - exists (d1 ++ w1 :: d2 ++ [w2]). split.
        + rewrite E. by app_norm.
        + by exists w1, w2.
      - exists (d1 ++ [w1]). split; [rewrite E; by app_norm|].
        destruct (completed (parseTodoLine line)); (split; [done|by exists w1]).
      - by exists []. }
    destruct (priority_shape line)
      as [(l & w & E & Hl & Hw & ->)|(-> & E & _)].
    - exists [LPAREN; l; RPAREN; w], d. rewrite E, Ed. split; [done|].
      split; [by exists l, w|done].
    - exists [], d. rewrite <- E, Ed. done. }
  destruct (completion_shape line)
    as [(Hc & (lead & ET & Hlead) & Hnl & _ & _)|(Hc & ET & _)].
  - exists (js "x " ++ lead), p, d. rewrite Hc in *.
    rewrite ET, E, <- !app_assoc. split; [done|].
    split; [by exists lead|]. split; [done|]. split; [done|].
    intros _. by rewrite <- E.
  - exists [], p, d. rewrite Hc in *. rewrite ET, E. done.
Qed.

(** [description_is_remainder] on ["x  Task"]: the prefix is ["x "] and one
    more space, the description is ["Task"]. *)
Lemma description_is_remainder_witness :
  exists c p d,
    trim line_x_two_spaces
    = c ++ p ++ d ++ description (parseTodoLine line_x_two_spaces)
    /\ completion_prefix true c
    /\ p = [] /\ d = [].
Proof.
  destruct (proj1 (description_is_remainder line_x_two_spaces))
    as (c & p & d & E & Hc & Hp & Hd & _).
  exists c, p, d. split; [exact E|]. split; [exact Hc|].
  split; [exact Hp|exact Hd].
Defined.

(** ** Buffer operations *)

Lemma foldl_push {A B} (p : A -> bool) (f : A -> B) (l : list A)
    (init : list B) :
  foldl (fun acc x => if p x then acc ++ [f x] else acc) init l
  = init ++ (f <$> List.filter p l).
Proof.
  revert init. induction l as [|x l IH]; intros init; simpl.
  - by rewrite app_nil_r.
  - rewrite IH. destruct (p x); [|done]. by rewrite <- app_assoc.
Qed.

Lemma parseTodoTxt_lines (text : str) :
  parseTodoTxt text = parseTodoLine <$> nonblank_lines text.
Proof. unfold parseTodoTxt, nonblank_lines. by rewrite foldl_push. Qed.

Lemma render_parseTodoTxt (text : str) :
  serializeTodo <$> parseTodoTxt text = canonical_lines text.
Proof.
  rewrite parseTodoTxt_lines. unfold canonical_lines.
  by rewrite <- list_fmap_compose.
Qed.

Lemma filter_index_all {A} (p : nat -> bool) (k : nat) (l : list A) :
  (forall j, k <= j -> p j = true) -> filter_index p k l = l.
Proof.
  revert k. induction l as [|x l IH]; intros k H; simpl; [done|].
  rewrite H by lia. f_equal. apply IH. intros j Hj. apply H. lia.
Qed.

Lemma filter_index_delete {A} (l : list A) (i k : nat) :
  filter_index (fun idx => negb (Z.of_nat idx =? Z.of_nat (k + i))%Z) k l
  = delete i l.
Proof.
  revert i k. induction l as [|x l IH]; intros i k; simpl; [done|].
  destruct i as [|i].
  - rewrite Nat.add_0_r, Z.eqb_refl. simpl.
    apply filter_index_all. intros j Hj.
    apply negb_true_iff, Z.eqb_neq. lia.
  - destruct (Z.eqb_spec (Z.of_nat k) (Z.of_nat (k + S i))) as [E|_]; [lia|].
    simpl. f_equal. rewrite <- (IH i (S k)).
    by replace (k + S i) with (S k + i) by lia.
Qed.

Lemma filter_index_delete_Z {A} (l : list A) (i : Z) :
  (0 <= i)%Z ->
  filter_index (fun idx => negb (Z.of_nat idx =? i)%Z) 0 l
  = delete (Z.to_nat i) l.
Proof.
  intros H. rewrite <- (filter_index_delete l (Z.to_nat i) 0).
  cbn [Nat.add]. by rewrite Z2Nat.id.
Qed.

Lemma in_range_test (n : nat) (i : Z) :
  (0 <= i < Z.of_nat n)%Z -> (i <? 0)%Z || (Z.of_nat n <=? i)%Z = false.
Proof.
  intros H. apply orb_false_iff. split; [apply Z.ltb_ge|apply Z.leb_gt]; lia.
Qed.

Lemma out_of_range_test (n : nat) (i : Z) :
  (i < 0 \/ Z.of_nat n <= i)%Z -> (i <? 0)%Z || (Z.of_nat n <=? i)%Z = true.
Proof.
  intros H. apply orb_true_iff.
  destruct H; [left; apply Z.ltb_lt|right; apply Z.leb_le]; lia.
Qed.

Lemma parseTodoTxt_nil : parseTodoTxt [] = [].
Proof. done. Qed.

Lemma length_zero_test {A} (l : list A) :
  (length l =? 0)%nat = true -> l = [].
Proof. destruct l; [done|]. simpl. done. Qed.

(** C8: on empty text [updateTaskAtLine] and [deleteTaskAtLine] return the
    empty text whatever the index is; with an index outside
    [0, number of parsed records), negative ones included, both return the
    text unchanged; deleting the only record gives the empty string. *)
Theorem edits_bounds (content : str) (i : Z) (t : Todo) :
  updateTaskAtLine [] i t = []
  /\ deleteTaskAtLine [] i = []
  /\ ((i < 0 \/ Z.of_nat (length (parseTodoTxt content)) <= i)%Z ->
      updateTaskAtLine content i t = content
      /\ deleteTaskAtLine content i = content)
  /\ (length (parseTodoTxt content) = 1%nat ->
      deleteTaskAtLine content 0 = []).
Proof.
  split; [done|]. split; [done|]. split.
  - intros H%out_of_range_test. unfold updateTaskAtLine, deleteTaskAtLine.
    cbv zeta. rewrite H.
    destruct (length content =? 0)%nat eqn:E; [|done].
    by apply length_zero_test in E as ->.
  - intros H. unfold deleteTaskAtLine. cbv zeta.
    destruct (length content =? 0)%nat eqn:E; [done|].
    rewrite H. cbn [Z.ltb Z.compare orb Z.leb Z.of_nat Pos.of_succ_nat].
    destruct (parseTodoTxt content) as [|x [|y l]]; try done.
Qed.

(** The bounds of [edits_bounds] on a one-line buffer: index 5 and index -1
    leave it unchanged, index 0 deletes its only record. *)
Lemma edits_bounds_witness :
  let content := js "(A) 2026-01-01 Call Mom" in
  updateTaskAtLine content 5 todo_new = content
  /\ deleteTaskAtLine content (-1) = content
  /\ deleteTaskAtLine content 0 = [].
Proof.
  cbv zeta. split; [|split].
  - apply (edits_bounds (js "(A) 2026-01-01 Call Mom") 5 todo_new).
    right. vm_compute. discriminate.
  - apply (edits_bounds (js "(A) 2026-01-01 Call Mom") (-1) todo_new).
    left. lia.
  - apply (edits_bounds (js "(A) 2026-01-01 Call Mom") 0 todo_new).
    vm_compute. reflexivity.
Defined.

(** C10: with an index in range, [updateTaskAtLine] and [deleteTaskAtLine]
    rebuild the whole text from the parsed records: the output is the join
    of [serializeTodo (parseTodoLine line)] over the non-blank lines, with
    the target replaced or removed.  Blank lines are dropped and the other
    lines come out in canonical form, not byte for byte. *)
Theorem edits_rewrite_all_lines (content : str) (i : Z) (t : Todo) :
  (0 <= i < Z.of_nat (length (parseTodoTxt content)))%Z ->
  updateTaskAtLine content i t
  = join_lines (<[Z.to_nat i := serializeTodo t]> (canonical_lines content))
  /\ deleteTaskAtLine content i
     = join_lines (delete (Z.to_nat i) (canonical_lines content)).
Proof.
  intros H. pose proof (in_range_test _ _ H) as Hr.
  assert (Hne : (length content =? 0)%nat = false).
  { destruct content; [|done]. rewrite parseTodoTxt_nil in H. simpl in H. lia. }
  unfold updateTaskAtLine, deleteTaskAtLine, updateTodoInList, render.
  cbv zeta. rewrite Hne, Hr.
  assert (Hl : (length (parseTodoTxt content) =? 0)%nat = false).
  { apply Nat.eqb_neq. lia. }
  rewrite Hl. split.
  - by rewrite list_fmap_insert, render_parseTodoTxt.
  - rewrite (filter_index_delete_Z _ i) by lia.
    rewrite list_fmap_delete, render_parseTodoTxt.
    destruct (delete (Z.to_nat i) (parseTodoTxt content)) eqn:E; simpl.
    + apply (f_equal (fmap serializeTodo)) in E.
      rewrite list_fmap_delete, render_parseTodoTxt in E. by rewrite E.
    + done.
Qed.

(** [edits_rewrite_all_lines] on the untidy buffer, last line targeted:
    the doubled space after [x] and the outer spaces are gone, and so is
    the blank line. *)
Lemma edits_rewrite_all_lines_witness :
  updateTaskAtLine buffer_untidy 2 todo_new
  = join_lines [js "x Task"; js "keep"; js "NEW"]
  /\ deleteTaskAtLine buffer_untidy 2
     = join_lines [js "x Task"; js "keep"].
Proof.
  assert (H : (0 <= 2 < Z.of_nat (length (parseTodoTxt buffer_untidy)))%Z).
  { vm_compute. split; [discriminate|reflexivity]. }
  destruct (edits_rewrite_all_lines buffer_untidy 2 todo_new H) as [-> ->].
  split; vm_compute; reflexivity.
Defined.

(** ** Scanning with [matchAll] *)

Lemma nonspace_run_cons (c : char) (r : str) :
  is_space c = false -> nonspace_run (c :: r) = c :: nonspace_run r.
Proof. intros H. simpl. by rewrite H. Qed.

Lemma nonspace_run_space (c : char) (r : str) :
  is_space c = true -> nonspace_run (c :: r) = [].
Proof. intros H. simpl. by rewrite H. Qed.

Lemma nonspace_run_idemp (s : str) :
  nonspace_run (nonspace_run s) = nonspace_run s.
Proof.
  induction s as [|c r IH]; [done|]. simpl.
  destruct (is_space c) eqn:E; [done|]. simpl. by rewrite E, IH.
Qed.

Lemma matchAll_from_skip exec (k : nat) (b : bool) (c : char) (s : str) :
  matchAll_from exec (S k) b (c :: s) = matchAll_from exec k false s.
Proof. done. Qed.

Lemma matchAll_from_hit exec (b : bool) (c : char) (s : str) (m : list str) :
  exec b (c :: s) = Some m ->
  matchAll_from exec 0 b (c :: s)
  = m :: matchAll_from exec (pred (length (default [] (m !! 0%nat)))) false s.
Proof. intros H. simpl. by rewrite H. Qed.

Lemma matchAll_from_miss exec (b : bool) (c : char) (s : str) :
  exec b (c :: s) = None ->
  matchAll_from exec 0 b (c :: s) = matchAll_from exec 0 false s.
Proof. intros H. simpl. by rewrite H. Qed.

Lemma collect_annotations_filter (ms : list (list str)) :
  collect_annotations ms
  = (fun m => default [] (m !! 1%nat))
      <$> List.filter (fun m => truthy (m !! 1%nat)) ms.
Proof. unfold collect_annotations. by rewrite foldl_push. Qed.

Lemma collect_annotations_cons (whole run : str) (ms : list (list str)) :
  run <> [] ->
  collect_annotations ([whole; run] :: ms) = run :: collect_annotations ms.
Proof.
  intros H. rewrite !collect_annotations_filter. simpl.
  by destruct run.
Qed.

Section annotation_scan.
Variable sigil : char.
Hypothesis sigil_nonspace : is_space sigil = false.

Lemma sigil_run_inv (s : str) (run : str) :
  sigil_run sigil s = Some run ->
  exists r, s = sigil :: r /\ nonspace_run r = run /\ run <> [].
Proof.
  destruct s as [|c r]; [done|]. simpl.
  destruct (N.eqb_spec c sigil) as [->|]; [|done].
  destruct (nonspace_run r) eqn:E; [done|]. intros [= <-]. by exists r.
Qed.

Lemma annotations_from_no_hit (s : str) :
  sigil_run sigil s = None ->
  annotations_from sigil true s = annotations_from sigil false s.
Proof.
  destruct s as [|c r]; [done|]. simpl.
  destruct (c =? sigil)%N; [|done].
  by destruct (nonspace_run r).
Qed.

Lemma annotations_from_hit (r : str) :
  nonspace_run r <> [] ->
  annotations_from sigil true (sigil :: r)
  = nonspace_run r :: annotations_from sigil false r.
Proof.
  intros H. simpl. rewrite N.eqb_refl, sigil_nonspace.
  by destruct (nonspace_run r).
Qed.

Lemma annotations_from_inside (c : char) (r : str) :
  annotations_from sigil false (c :: r)
  = annotations_from sigil (is_space c) r.
Proof. done. Qed.

(** The scan resumed inside or after a match agrees with the one-pass
    computation: [skip] code units of the current token are still covered
    by the previous match. *)
Lemma annotation_scan_resume (s : str) (skip : nat) :
  skip <= length (nonspace_run s) ->
  collect_annotations (matchAll_from (annotation_exec sigil) skip false s)
  = annotations_from sigil false s.
Proof.
  revert skip. induction s as [|c r IH]; intros skip Hskip.
  - simpl in Hskip. by replace skip with 0 by lia.
  - destruct skip as [|k].
    + rewrite annotations_from_inside.
      destruct (annotation_exec sigil false (c :: r)) as [m|] eqn:E.
      * rewrite (matchAll_from_hit _ _ _ _ _ E).
        unfold annotation_exec in E. destruct (is_space c) eqn:Hc; [|done].
        destruct (sigil_run sigil r) as [run|] eqn:Hrun; [|done].
        simplify_eq.
        apply sigil_run_inv in Hrun as (r' & -> & Hrun & Hne).
        simpl default. cbn [length pred].
        rewrite collect_annotations_cons by done.
        rewrite IH.
        -- rewrite annotations_from_hit
             by by rewrite Hrun.
           by rewrite annotations_from_inside, sigil_nonspace, Hrun.
        -- rewrite nonspace_run_cons by done. simpl. rewrite Hrun. lia.
      * rewrite (matchAll_from_miss _ _ _ _ E), IH by lia.
        unfold annotation_exec in E. destruct (is_space c) eqn:Hc; [|done].
        destruct (sigil_run sigil r) eqn:Hrun; [done|].
        by rewrite annotations_from_no_hit.
    + rewrite matchAll_from_skip. simpl in Hskip.
      destruct (is_space c) eqn:Hc; [simpl in Hskip; lia|].
      rewrite annotations_from_inside, Hc. apply IH. simpl in Hskip. lia.
Qed.

(** The annotation loop of [parseTodoLine] computes [annotations_from]. *)
Lemma annotation_scan (s : str) :
  collect_annotations (matchAll (annotation_exec sigil) s)
  = annotations_from sigil true s.
Proof.
  unfold matchAll. destruct s as [|c r]; [done|].
  destruct (sigil_run sigil (c :: r)) as [run|] eqn:Hrun.
  - assert (E : annotation_exec sigil true (c :: r)
                = Some [sigil :: run; run]).
    { unfold annotation_exec. by rewrite Hrun. }
    rewrite (matchAll_from_hit _ _ _ _ _ E).
    apply sigil_run_inv in Hrun as (r' & [= -> ->] & Hrun & Hne).
    simpl default. cbn [length pred].
    rewrite collect_annotations_cons by done.
    rewrite annotation_scan_resume by (rewrite Hrun; lia).
    rewrite annotations_from_hit by by rewrite Hrun.
    by rewrite Hrun.
  - rewrite annotations_from_no_hit by done.
    rewrite <- (annotation_scan_resume (c :: r) 0) by lia.
    f_equal.
    destruct (annotation_exec sigil true (c :: r)) as [m|] eqn:E.
    + assert (E' : annotation_exec sigil false (c :: r) = Some m).
      { unfold annotation_exec in *. by rewrite Hrun in E. }
      by rewrite (matchAll_from_hit _ _ _ _ _ E),
        (matchAll_from_hit _ _ _ _ _ E').
    + assert (E' : annotation_exec sigil false (c :: r) = None).
      { unfold annotation_exec in *. by rewrite Hrun in E. }
      by rewrite (matchAll_from_miss _ _ _ _ E),
        (matchAll_from_miss _ _ _ _ E').
Qed.
End annotation_scan.

Lemma omap_cons {A B} (f : A -> option B) (x : A) (l : list A) :
  omap f (x :: l)
  = match f x with Some y => y :: omap f l | None => omap f l end.
Proof. done. Qed.

Lemma boundary_after_snoc (pre : str) (c : char) :
  boundary_after (pre ++ [c]) = is_space c.
Proof. unfold boundary_after. by rewrite last_snoc. Qed.

Lemma annotation_at_here (sigil : char) (pre : str) (c : char) (r : str) :
  annotation_at sigil (pre ++ c :: r) (length pre)
  = if boundary_after pre && (c =? sigil)%N
    then match nonspace_run r with [] => None | run => Some run end
    else None.
Proof.
  unfold annotation_at.
  rewrite list_lookup_middle by done.
  replace (drop (S (length pre)) (pre ++ c :: r)) with r.
  2:{ rewrite (assoc_L _ pre [c] r : pre ++ c :: r = (pre ++ [c]) ++ r).
      rewrite drop_app_length'; [done|]. rewrite length_app. simpl. lia. }
  assert (Hb : match length pre with
               | O => true
               | S j => from_option is_space false ((pre ++ c :: r) !! j)
               end = boundary_after pre).
  { destruct pre as [|a pre _] using rev_ind; [done|].
    rewrite boundary_after_snoc, length_app. simpl.
    rewrite Nat.add_1_r. rewrite <- app_assoc. simpl.
    by rewrite list_lookup_middle. }
  rewrite Hb.
  destruct (N.eqb_spec c sigil) as [->|Hne].
  - rewrite bool_decide_eq_true_2 by done. by rewrite andb_comm.
  - rewrite bool_decide_eq_false_2 by congruence. by rewrite andb_comm.
Qed.

Lemma annotations_spec_from (sigil : char) (s pre : str) :
  omap (annotation_at sigil (pre ++ s)) (seq (length pre) (length s))
  = annotations_from sigil (boundary_after pre) s.
Proof.
  revert pre. induction s as [|c r IH]; intros pre; [done|].
  cbn [length seq annotations_from]. rewrite omap_cons.
  rewrite annotation_at_here.
  specialize (IH (pre ++ [c])).
  rewrite <- app_assoc, length_app, Nat.add_1_r, boundary_after_snoc in IH.
  cbn [app] in IH. rewrite IH.
  destruct (boundary_after pre && (c =? sigil)%N); [|done].
  by destruct (nonspace_run r).
Qed.

Lemma annotations_spec_one_pass (sigil : char) (s : str) :
  annotations_spec sigil s = annotations_from sigil true s.
Proof. apply (annotations_spec_from sigil s []). Qed.

(** ** Projects and contexts *)

(** C6: [projects] (and [contexts], with [@]) list, by increasing index
    and with duplicates kept, the greedy non-whitespace run after every
    [+] of the trimmed line that is at index 0 or right after a whitespace
    code unit and is followed by at least one non-whitespace code unit.
    The scan reads the whole trimmed line, whatever prefix the grammar
    consumes. *)
Theorem annotations_rule (line : str) :
  projects (parseTodoLine line) = annotations_spec PLUS (trim line)
  /\ contexts (parseTodoLine line) = annotations_spec AT (trim line)
  /\ projects (parseTodoLine (js "++double Double plus")) = [js "+double"]
  /\ projects (parseTodoLine (js "Task+inline No space")) = []
  /\ contexts (parseTodoLine (js "email@example.com Email")) = []
  /\ projects (parseTodoLine (js "x (A) 2024-01-01 +a +b +a"))
     = [js "a"; js "b"; js "a"].
Proof.
  destruct (parseTodoLine_fields line) as (_ & _ & _ & Hp & Hc & _).
  rewrite Hp, Hc, !annotation_scan, !annotations_spec_one_pass by done.
  repeat split; vm_compute; reflexivity.
Qed.
(** ** Tags *)

Lemma is_token_cons_inv (c : char) (r : str) :
  is_token (c :: r) -> is_space c = false /\ is_token r.
Proof.
  unfold is_token. simpl. destruct (is_space c); [done|].
  intros [= E]. done.
Qed.

Lemma nonspace_run_token (s : str) : is_token (nonspace_run s).
Proof. apply nonspace_run_idemp. Qed.

Lemma tag_key_run (s key : str) :
  tag_key key (nonspace_run s) = tag_key key s.
Proof.
  revert key. induction s as [|c r IH]; intros key; [done|].
  simpl. destruct (is_space c) eqn:Hc.
  - rewrite (space_neqb c COLON) by done. done.
  - simpl. rewrite Hc, nonspace_run_idemp, IH. done.
Qed.

Lemma tag_key_none_any (s key key' : str) :
  tag_key key s = None -> tag_key key' s = None.
Proof.
  revert key key'. induction s as [|c r IH]; intros key key'; [done|].
  simpl.
  destruct (if (c =? COLON)%N
            then match nonspace_run r with [] => None | v => Some v end
            else None); [done|].
  destruct (is_space c); [done|]. apply IH.
Qed.

Lemma tag_exec_propagate (c : char) (r : str) :
  tag_exec false (c :: r) = None -> is_space c = false ->
  tag_exec false r = None.
Proof.
  intros H Hc. simpl in H. rewrite Hc in H.
  destruct r as [|d r]; [done|]. simpl in *.
  destruct (if (d =? COLON)%N
            then match nonspace_run r with [] => None | v => Some v end
            else None); [done|].
  destruct (is_space d); [done|]. by apply (tag_key_none_any _ [c; d]).
Qed.

Lemma split_at_colon_cons (c : char) (r : str) :
  split_at_colon (c :: r)
  = if (c =? COLON)%N
    then match r with [] => None | _ :: _ => Some ([], r) end
    else match split_at_colon r with
         | Some (k, v) => Some (c :: k, v)
         | None => None
         end.
Proof.
  unfold split_at_colon. simpl. destruct (c =? COLON)%N eqn:E; simpl.
  - by destruct r.
  - by destruct (drop (length (before_colon r)) r) as [|? [|? ?]].
Qed.

Lemma split_at_colon_inv (s k v : str) :
  split_at_colon s = Some (k, v) -> s = k ++ COLON :: v /\ v <> [].
Proof.
  revert k. induction s as [|c r IH]; intros k; [done|].
  rewrite split_at_colon_cons.
  destruct (N.eqb_spec c COLON) as [->|Hne].
  - destruct r; [done|]. by intros [= <- <-].
  - destruct (split_at_colon r) as [[k' v']|]; [|done].
    intros [= <- <-]. destruct (IH k' eq_refl) as [-> Hv]. done.
Qed.

(** On a token the lazy key stops at the first colon that leaves a
    non-empty value. *)
Lemma tag_key_token (r key : str) :
  is_token r ->
  tag_key key r
  = match split_at_colon r with
    | Some (k, v) => Some [key ++ k ++ COLON :: v; key ++ k; v]
    | None => None
    end.
Proof.
  revert key. induction r as [|c r IH]; intros key Htok; [done|].
  apply is_token_cons_inv in Htok as [Hc Hr].
  rewrite split_at_colon_cons. simpl. rewrite Hr, Hc.
  destruct (N.eqb_spec c COLON) as [->|Hne].
  - destruct r as [|v1 v]; [done|]. by rewrite app_nil_r.
  - rewrite IH by done. destruct (split_at_colon r) as [[k v]|]; [|done].
    by rewrite <- !app_assoc.
Qed.

Lemma tag_exec_token (w : str) :
  is_token w ->
  tag_exec false w
  = match split_token w with
    | Some (k, v) => Some [w; k; v]
    | None => None
    end.
Proof.
  destruct w as [|c r]; [done|].
  intros [Hc Hr]%is_token_cons_inv. simpl. rewrite Hc.
  rewrite tag_key_token by done.
  destruct (split_at_colon r) as [[k v]|] eqn:E; [|done].
  apply split_at_colon_inv in E as [-> _]. done.
Qed.

Lemma tag_exec_run (s : str) :
  tag_exec false (nonspace_run s) = tag_exec false s.
Proof.
  destruct s as [|c r]; [done|]. simpl.
  destruct (is_space c) eqn:Hc; [done|]. simpl. by rewrite Hc, tag_key_run.
Qed.

(** A match of the tag expression covers its whole token. *)
Lemma tag_exec_whole (s : str) (m : list str) :
  tag_exec false s = Some m -> m !! 0%nat = Some (nonspace_run s).
Proof.
  rewrite <- tag_exec_run, tag_exec_token by apply nonspace_run_token.
  destruct (split_token (nonspace_run s)) as [[k v]|]; [|done].
  by intros [= <-].
Qed.
Lemma words_from_cons (b : bool) (c : char) (r : str) :
  words_from b (c :: r)
  = (if b && negb (is_space c) then [nonspace_run (c :: r)] else [])
    ++ words_from (is_space c) r.
Proof. done. Qed.

Lemma words_from_tokens (s : str) (b : bool) :
  Forall is_token (words_from b s).
Proof.
  revert b. induction s as [|c r IH]; intros b; [constructor|].
  rewrite words_from_cons. apply Forall_app. split; [|apply IH].
  destruct (b && negb (is_space c)); [|constructor].
  constructor; [apply nonspace_run_token|constructor].
Qed.

(** The three states of the tag scan: at a token start; inside a token,
    still covered by the last match up to the end of the token; inside a
    token whose start did not match. *)
Lemma tag_scan_resume (s : str) (skip : nat) (b bos : bool) :
  (b = true /\ skip = 0)
  \/ (b = false /\ skip = length (nonspace_run s))
  \/ (b = false /\ skip = 0 /\ tag_exec false s = None) ->
  matchAll_from tag_exec skip bos s = omap (tag_exec false) (words_from b s).
Proof.
  revert skip b bos. induction s as [|c r IH]; intros skip b bos Inv.
  - by destruct skip.
  - rewrite words_from_cons.
    destruct (is_space c) eqn:Hc.
    + assert (E : tag_exec bos (c :: r) = None) by (simpl; by rewrite Hc).
      assert (skip = 0) as ->.
      { destruct Inv as [[_ ->]|[[_ ->]|(_ & -> & _)]]; try done.
        by rewrite nonspace_run_space. }
      rewrite (matchAll_from_miss _ _ _ _ E), andb_false_r. simpl.
      apply IH. by left.
    + rewrite andb_true_r.
      destruct Inv as [[-> ->]|[[-> ->]|(-> & -> & E)]].
      * cbn [app]. rewrite omap_cons, tag_exec_run.
        destruct (tag_exec false (c :: r)) as [m|] eqn:E.
        -- rewrite (matchAll_from_hit tag_exec bos _ _ _ E).
           rewrite (tag_exec_whole _ _ E), nonspace_run_cons by done.
           simpl default. cbn [length pred]. f_equal. apply IH. by right; left.
        -- rewrite (matchAll_from_miss tag_exec bos _ _ E).
           apply IH. right; right. split; [done|]. split; [done|].
           by apply (tag_exec_propagate c).
      * rewrite nonspace_run_cons by done. cbn [length app].
        rewrite matchAll_from_skip. apply IH. by right; left.
      * rewrite (matchAll_from_miss tag_exec bos _ _ E). cbn [app].
        apply IH. right; right. split; [done|]. split; [done|].
        by apply (tag_exec_propagate c).
Qed.

Lemma tag_scan (s : str) :
  matchAll tag_exec s = omap (tag_exec false) (words s).
Proof. apply tag_scan_resume. by left. Qed.

Lemma split_token_inv (w k v : str) :
  split_token w = Some (k, v) -> w = k ++ COLON :: v /\ k <> [] /\ v <> [].
Proof.
  destruct w as [|c r]; [done|]. simpl.
  destruct (split_at_colon r) as [[k' v']|] eqn:E; [|done].
  intros [= <- <-]. apply split_at_colon_inv in E as [-> Hv]. done.
Qed.

(** The tag loop, token by token. *)
Lemma collect_tags_tokens (ws : list str) :
  Forall is_token ws ->
  collect_tags (omap (tag_exec false) ws)
  = foldl (fun acc kv => obj_set kv.1 kv.2 acc) ∅
      (omap (tag_of_token split_token) ws).
Proof.
  unfold collect_tags. generalize (∅ : gmap str str).
  induction ws as [|w ws IH]; intros acc Htok; [done|].
  apply Forall_cons in Htok as [Hw Hws].
  rewrite !omap_cons, tag_exec_token by done. unfold tag_of_token.
  destruct (split_token w) as [[k v]|] eqn:E.
  - apply split_token_inv in E as (_ & Hk & Hv).
    cbn [foldl]. rewrite IH by done.
    destruct k as [|k1 k]; [done|]. destruct v as [|v1 v]; [done|].
    simpl lookup. simpl default. cbn [truthy andb].
    destruct (startsWith [PLUS] w), (startsWith [AT] w); done.
  - rewrite IH by done.
    by destruct (startsWith [PLUS] w || startsWith [AT] w).
Qed.

Lemma lookup_obj_set (k v key : str) (o : gmap str str) :
  key <> js "__proto__" ->
  obj_set k v o !! key = if decide (k = key) then Some v else o !! key.
Proof.
  intros Hkey. unfold obj_set.
  destruct (decide (k = js "__proto__")) as [->|Hk].
  - by rewrite decide_False.
  - destruct (decide (k = key)) as [->|Hne].
    + by rewrite lookup_insert_eq.
    + by rewrite lookup_insert_ne.
Qed.

Lemma lookup_foldl_obj_set (key : str) (pairs : list (str * str))
    (o : gmap str str) :
  key <> js "__proto__" ->
  foldl (fun acc kv => obj_set kv.1 kv.2 acc) o pairs !! key
  = foldl (fun acc kv => if decide (kv.1 = key) then Some kv.2 else acc)
      (o !! key) pairs.
Proof.
  intros Hkey. revert o. induction pairs as [|[k v] pairs IH]; intros o.
  - done.
  - cbn [foldl]. rewrite IH. by rewrite lookup_obj_set.
Qed.

Lemma tags_tokens (line : str) :
  tags (parseTodoLine line)
  = foldl (fun acc kv => obj_set kv.1 kv.2 acc) ∅
      (tag_pairs split_token (trim line)).
Proof.
  destruct (parseTodoLine_fields line) as (_ & _ & _ & _ & _ & Ht & _).
  rewrite Ht, tag_scan. apply collect_tags_tokens, words_from_tokens.
Qed.

(** A token [__proto__:x] leaves no entry in [tags]. *)
Lemma tags_proto_token_dropped :
  tags (parseTodoLine (js "Task __proto__:x")) = ∅.
Proof. by vm_compute. Qed.

(** C7, as stated, fails: the key of a token that begins with a colon is
    not cut at the first colon; ["::v"] gives the key [":"] and the value
    ["v"], where a split at the first colon has an empty key and gives no
    tag. *)
Lemma tag_key_may_start_with_colon :
  ~ (tags (parseTodoLine line_double_colon) !! js ":"
     = last_value (js ":")
         (tag_pairs split_first_colon (trim line_double_colon))).
Proof. vm_compute. discriminate. Qed.

(** C7, amended: [tags] is built token by token over the trimmed line,
    left to right.  A token that does not begin with [+] or [@] is split
    at the first colon found after its first code unit, and gives a tag
    when the value after that colon is not empty; so the value keeps any
    further colon, ["key:"] and [":value"] give no tag, and a token that
    begins with a colon keeps that colon in its key.  For every key other
    than ["__proto__"], the mapping holds the value of the last token with
    that key. *)
Theorem tags_rule (line : str) :
  (forall key : str,
      key <> js "__proto__" ->
      tags (parseTodoLine line) !! key
      = last_value key (tag_pairs split_token (trim line)))
  /\ tags (parseTodoLine (js "Task key:val:ue"))
     = {[ js "key" := js "val:ue" ]}
  /\ tags (parseTodoLine (js "Task key:")) = ∅
  /\ tags (parseTodoLine (js "Task :value")) = ∅
  /\ tags (parseTodoLine (js "+p:1 @c:2 k:3")) = {[ js "k" := js "3" ]}
  /\ tags (parseTodoLine (js "a:1 b:2 a:3"))
     = {[ js "a" := js "3"; js "b" := js "2" ]}
  /\ tags (parseTodoLine line_double_colon) = {[ js ":" := js "v" ]}.
Proof.
  split.
  - intros key Hkey. rewrite tags_tokens.
    by rewrite lookup_foldl_obj_set.
  - repeat split; by vm_compute.
Qed.

(** [tags_rule] on a line with a repeated key. *)
Lemma tags_rule_witness :
  tags (parseTodoLine (js "a:1 b:2 a:3")) !! js "a" = Some (js "3").
Proof.
  rewrite (proj1 (tags_rule (js "a:1 b:2 a:3")) (js "a")).
  - by vm_compute.
  - vm_compute. discriminate.
Defined.
(** ** Tokens of a line *)

Lemma words_from_space (b : bool) (w : char) (s : str) :
  is_space w = true -> words_from b (w :: s) = words_from true s.
Proof. intros H. rewrite words_from_cons, H, andb_false_r. done. Qed.

Lemma words_lead (lead s : str) :
  forallb is_space lead = true -> words (lead ++ s) = words s.
Proof.
  unfold words. induction lead as [|w lead IH]; [done|].
  simpl forallb. intros [Hw Hl]%andb_true_iff.
  cbn [app]. rewrite words_from_space by done. by apply IH.
Qed.

Lemma words_from_inside (tok : str) (w : char) (r : str) :
  is_token tok -> is_space w = true ->
  words_from false (tok ++ w :: r) = words r.
Proof.
  intros Htok Hw. induction tok as [|c tok IH].
  - cbn [app]. by rewrite words_from_space.
  - apply is_token_cons_inv in Htok as [Hc Htok].
    cbn [app]. rewrite words_from_cons, Hc. by apply IH.
Qed.

Lemma nonspace_run_token_sep (tok : str) (w : char) (r : str) :
  is_token tok -> is_space w = true -> nonspace_run (tok ++ w :: r) = tok.
Proof.
  intros Htok Hw. induction tok as [|c tok IH].
  - by apply nonspace_run_space.
  - apply is_token_cons_inv in Htok as [Hc Htok].
    cbn [app]. rewrite nonspace_run_cons by done. f_equal. by apply IH.
Qed.

(** A token followed by a whitespace code unit is the first word. *)
Lemma words_token_sep (tok : str) (w : char) (r : str) :
  is_token tok -> tok <> [] -> is_space w = true ->
  words (tok ++ w :: r) = tok :: words r.
Proof.
  intros Htok Hne Hw. destruct tok as [|c tok]; [done|].
  pose proof (nonspace_run_token_sep _ w r Htok Hw) as Hrun.
  apply is_token_cons_inv in Htok as [Hc Htok].
  unfold words. cbn [app] in *. rewrite words_from_cons, Hc, Hrun.
  cbn [andb negb app]. f_equal. by apply words_from_inside.
Qed.

Lemma is_token_cons (c : char) (r : str) :
  is_space c = false -> is_token r -> is_token (c :: r).
Proof. unfold is_token. intros Hc Hr. simpl. by rewrite Hc, Hr. Qed.

Lemma date_format_token (d : str) :
  date_format d = true -> is_token d /\ d <> [].
Proof.
  intros (y1&y2&y3&y4&m1&m2&d1&d2&->&?&?&?&?&?&?&?&?)%date_format_inv.
  split; [|done].
  repeat (apply is_token_cons; [first [by apply digit_not_space|reflexivity]|]).
  reflexivity.
Qed.

Lemma priority_token (l : char) :
  is_upper l = true -> is_token [LPAREN; l; RPAREN].
Proof.
  intros H%upper_not_space. unfold is_token. simpl. by rewrite H.
Qed.

(** The annotation loops and the tag loop only see the words of the
    trimmed line. *)
Lemma annotations_from_words (sigil : char) (s : str) (b : bool) :
  is_space sigil = false ->
  annotations_from sigil b s = omap (sigil_run sigil) (words_from b s).
Proof.
  intros Hs. revert b. induction s as [|c r IH]; intros b; [done|].
  rewrite words_from_cons. cbn [annotations_from]. rewrite IH.
  destruct b; cbn [andb]; [|done].
  destruct (is_space c) eqn:Hc.
  - by rewrite (space_neqb c sigil).
  - cbn [negb app]. rewrite omap_cons, nonspace_run_cons by done.
    simpl. destruct (c =? sigil)%N; [|done].
    rewrite nonspace_run_idemp. by destruct (nonspace_run r).
Qed.

Lemma parse_sees_words (line : str) :
  let t := parseTodoLine line in
  projects t = omap (sigil_run PLUS) (words (trim line))
  /\ contexts t = omap (sigil_run AT) (words (trim line))
  /\ tags t = collect_tags (omap (tag_exec false) (words (trim line))).
Proof.
  destruct (parseTodoLine_fields line) as (_ & _ & _ & Hp & Hc & Ht & _).
  cbv zeta. rewrite Hp, Hc, Ht, !annotation_scan, tag_scan by done.
  by rewrite !annotations_from_words.
Qed.

(** ** Parsing a serialized parse *)

Lemma serializeTodo_parts (t : Todo) :
  serializeTodo t
  = (if completed t then js "x " else [])
    ++ (if truthy (priority t)
        then js "(" ++ default [] (priority t) ++ js ") " else [])
    ++ (if completed t && truthy (completionDate t)
        then default [] (completionDate t) ++ js " " else [])
    ++ (if truthy (creationDate t)
        then default [] (creationDate t) ++ js " " else [])
    ++ description t.
Proof.
  unfold serializeTodo. cbv zeta.
  destruct (completed t), (truthy (priority t)),
    (truthy (completionDate t)), (truthy (creationDate t));
    cbn [andb]; rewrite ?app_nil_l, <- ?app_assoc; reflexivity.
Qed.

Lemma same_start_no_lead (x y : str) :
  same_start x y -> no_lead y -> no_lead x.
Proof.
  intros [->|(c & a & -> & H)]; [done|]. simpl. intros _.
  destruct H as [H| ->]; [by apply digit_not_space|done].
Qed.

Lemma same_start_nonempty (x y : str) :
  same_start x y -> y <> [] -> x <> [].
Proof. intros [->|(c & a & -> & H)]; done. Qed.

Lemma same_start_not_x (x y : str) :
  same_start x y -> startsWith (js "x ") y = false ->
  startsWith (js "x ") x = false.
Proof.
  intros [->|(c & a & -> & H)]; [done|]. intros _.
  change (js "x ") with [LOWER_X; SP]. cbn [startsWith].
  apply andb_false_iff. left. apply N.eqb_neq. intros <-.
  destruct H as [H|H]; done.
Qed.

Lemma date_format_head (d : str) :
  date_format d = true -> exists c a, d = c :: a /\ is_digit c = true.
Proof.
  intros (y1&y2&y3&y4&m1&m2&d1&d2&->&?&_)%date_format_inv. by eexists _, _.
Qed.

Lemma date_format_truthy (d : str) :
  date_format d = true -> truthy (Some d) = true.
Proof. intros (c & a & -> & _)%date_format_head. done. Qed.

(** The date block reads back the dates that [serializeTodo] writes,
    unless the completion date of an uncompleted record was dropped. *)
Lemma reparse_dates (b : bool) (r1 : str) (cd crd : option str)
    (desc : str) :
  parse_dates b r1 = (cd, crd, desc) ->
  no_trail r1 ->
  let sd := (if b && truthy cd then default [] cd ++ js " " else [])
            ++ (if truthy crd then default [] crd ++ js " " else [])
            ++ desc in
  (b = true \/ cd = None -> parse_dates b sd = (cd, crd, desc))
  /\ (forall A (f : str -> option A),
        blind_to_dates f -> omap f (words sd) = omap f (words r1))
  /\ no_trail sd
  /\ (sd = r1 \/ exists c a, sd = c :: a /\ is_digit c = true).
Proof.
  intros Hparse Ht. cbv zeta. change (js " ") with [SP].
  destruct (starts_with_date_dec r1) as [(d1 & w1 & r & -> & H1 & Hw1)|Hno].
  - destruct (no_trail_after_space _ _ _ Ht Hw1) as [Hr Htr].
    destruct (date_format_token _ H1) as [Htok1 Hne1].
    destruct (starts_with_date_dec r) as [(d2 & w2 & r' & -> & H2 & Hw2)|Hno].
    + rewrite parse_dates_two in Hparse by done. simplify_eq.
      destruct (no_trail_after_space _ _ _ Htr Hw2) as [Hr' Htr'].
      destruct (date_format_token _ H2) as [Htok2 Hne2].
      rewrite !date_format_truthy by done. simpl default.
      rewrite (words_token_sep d1 w1), (words_token_sep d2 w2) by done.
      destruct b; cbn [andb]; app_norm.
      * split; [|split; [|split]].
        -- intros _. by apply (parse_dates_two true d1 d2 SP SP).
        -- intros A f _.
           by rewrite (words_token_sep d1 SP), (words_token_sep d2 SP).
        -- apply (no_trail_app (d1 ++ SP :: d2 ++ [SP])) in Htr'; [|done].
           revert Htr'. by app_norm.
        -- right. destruct (date_format_head _ H1) as (c & a & -> & Hc).
           by eexists _, _.
      * split; [|split; [|split]].
        -- by intros [?|?].
        -- intros A f Hf. rewrite (words_token_sep d2 SP) by done.
           by rewrite (omap_cons f d1), (Hf d1).
        -- apply (no_trail_app (d2 ++ [SP])) in Htr'; [|done].
           revert Htr'. by app_norm.
        -- right. destruct (date_format_head _ H2) as (c & a & -> & Hc).
           by eexists _, _.
    + rewrite parse_dates_one in Hparse by done.
      assert (Hsd : d1 ++ SP :: r
                    = (if b && truthy cd then default [] cd ++ [SP] else [])
                      ++ (if truthy crd then default [] crd ++ [SP] else [])
                      ++ r /\ desc = r).
      { destruct b; simplify_eq; rewrite date_format_truthy by done;
          simpl; by app_norm. }
      destruct Hsd as [Hsd ->]. rewrite <- Hsd. split; [|split; [|split]].
      * intros _. rewrite parse_dates_one by done. done.
      * intros A f _.
        by rewrite (words_token_sep d1 SP), (words_token_sep d1 w1).
      * apply (no_trail_app (d1 ++ [SP])) in Htr; [|done].
        revert Htr. by app_norm.
      * right. destruct (date_format_head _ H1) as (c & a & -> & Hc).
        by eexists _, _.
  - rewrite parse_dates_zero in Hparse by done. simplify_eq.
    cbn [truthy andb app]. rewrite andb_false_r. cbn [app].
    split; [intros _; by apply parse_dates_zero|].
    split; [done|]. split; [done|]. by left.
Qed.

Lemma parse_priority_no_trail (r0 r1 : str) (prio : option str) :
  parse_priority r0 = (prio, r1) -> no_trail r0 -> no_trail r1.
Proof.
  intros Hparse Ht.
  destruct (starts_with_priority_dec r0) as [(l & w & r & -> & Hl & Hw)|Hno].
  - rewrite parse_priority_some in Hparse by done. simplify_eq.
    by destruct (no_trail_after_space [LPAREN; l; RPAREN] w r1 Ht Hw).
  - rewrite parse_priority_none in Hparse by done. by simplify_eq.
Qed.

(** The priority block reads back the priority that [serializeTodo]
    writes. *)
Lemma reparse_priority (r0 r1 sd : str) (prio : option str) :
  parse_priority r0 = (prio, r1) ->
  no_trail r0 ->
  no_trail sd ->
  (sd = r1 \/ exists c a, sd = c :: a /\ is_digit c = true) ->
  let sp := (if truthy prio then js "(" ++ default [] prio ++ js ") " else [])
            ++ sd in
  parse_priority sp = (prio, sd)
  /\ (forall A (f : str -> option A),
        omap f (words sd) = omap f (words r1) ->
        omap f (words sp) = omap f (words r0))
  /\ no_trail sp
  /\ same_start sp r0.
Proof.
  intros Hparse Ht Htsd Hhead. cbv zeta.
  change (js "(") with [LPAREN]. change (js ") ") with [RPAREN; SP].
  destruct (starts_with_priority_dec r0) as [(l & w & r & -> & Hl & Hsp)|Hno].
  - rewrite parse_priority_some in Hparse by done. simplify_eq.
    destruct (no_trail_after_space [LPAREN; l; RPAREN] w r1 Ht Hsp)
      as [Hne _].
    assert (Hsd : sd <> []).
    { destruct Hhead as [->|(c & a & -> & _)]; done. }
    simpl default. cbn [truthy app]. split; [|split; [|split]].
    + by apply parse_priority_some.
    + intros A f Hw.
      pose proof (words_token_sep [LPAREN; l; RPAREN] SP sd
                    (priority_token _ Hl) ltac:(done) eq_refl) as E1.
      pose proof (words_token_sep [LPAREN; l; RPAREN] w r1
                    (priority_token _ Hl) ltac:(done) Hsp) as E2.
      cbn [app] in E1, E2. by rewrite E1, E2, !omap_cons, Hw.
    + by apply (no_trail_app [LPAREN; l; RPAREN; SP]).
    + right. eexists _, _. split; [done|]. by right.
  - rewrite parse_priority_none in Hparse by done. simplify_eq.
    cbn [truthy app]. split; [|split; [|split]]; try done.
    + apply parse_priority_none.
      destruct Hhead as [->|(c & a & -> & Hc)]; [done|].
      intros (l & w & r & [= -> _] & _). done.
    + destruct Hhead as [->|(c & a & -> & Hc)]; [by left|].
      right. eexists _, _. split; [done|]. by left.
Qed.

(** What [parseTodoLine] reads in the serialization of a parse. *)
Lemma reparse (line : str) :
  let t := parseTodoLine line in
  let s := serializeTodo t in
  trim s = s
  /\ startsWith (js "x ") s = completed t
  /\ (parse_priority (remaining_after_completion s)).1 = priority t
  /\ (completed t = true \/ completionDate t = None ->
      parse_dates (completed t) (remaining_after_priority s)
      = (completionDate t, creationDate t, description t))
  /\ (forall A (f : str -> option A),
        blind_to_dates f -> omap f (words s) = omap f (words (trim line))).
Proof.
  cbv zeta.
  destruct (parseTodoLine_fields line) as (_ & Hprio & Hdates & _).
  unfold remaining_after_priority in Hdates.
  destruct (parse_priority (remaining_after_completion line))
    as [prio r1] eqn:Hpp.
  cbn [fst snd] in *.
  assert (Hr0 : no_trail (remaining_after_completion line)
                /\ no_lead (remaining_after_completion line)).
  { destruct (completion_shape line) as [(_&_&?&?&_)|(_&_&_&?&?)]; done. }
  destruct Hr0 as [Ht0 Hl0].
  pose proof (parse_priority_no_trail _ _ _ Hpp Ht0) as Ht1.
  symmetry in Hdates.
  destruct (reparse_dates _ _ _ _ _ Hdates Ht1) as (Hd & Hwd & Htd & Hhd).
  destruct (reparse_priority _ _ _ _ Hpp Ht0 Htd Hhd)
    as (Hp & Hwp & Htp & Hsp).
  rewrite serializeTodo_parts. rewrite Hprio.
  set (sd := _ ++ _ ++ description (parseTodoLine line)) in *.
  set (sp := _ ++ sd) in *.
  assert (Hlp : no_lead sp) by by apply (same_start_no_lead _ _ Hsp).
  destruct (completion_shape line)
    as [(Hc & (lead & ET & Hlead) & _ & _ & Hne0)|(Hc & ET & Hx & _)];
    rewrite Hc in *.
  - assert (Hnesp : sp <> []) by by apply (same_start_nonempty _ _ Hsp).
    change (js "x ") with [LOWER_X; SP] in *.
    assert (Htrim : trim ([LOWER_X; SP] ++ sp) = [LOWER_X; SP] ++ sp).
    { apply trim_id; [done|]. by apply no_trail_app. }
    rewrite Htrim. unfold remaining_after_priority, remaining_after_completion.
    cbv zeta. rewrite Htrim. cbn [app]. unfold after_completion.
    change (drop 2 (LOWER_X :: SP :: sp)) with sp.
    rewrite (trim_id sp) by done.
    rewrite !startsWith_x. rewrite Hp. cbn [fst snd].
    split; [done|]. split; [done|]. split; [done|]. split; [done|].
    intros A f Hf. rewrite ET. cbn [app].
    pose proof (words_token_sep [LOWER_X] SP sp eq_refl ltac:(done) eq_refl)
      as E1.
    pose proof (words_token_sep [LOWER_X] SP
                  (lead ++ remaining_after_completion line)
                  eq_refl ltac:(done) eq_refl) as E2.
    cbn [app] in E1, E2. rewrite E1, E2, words_lead, !omap_cons by done.
    by rewrite (Hwp A f (Hwd A f Hf)).
  - cbn [app]. assert (Htrim : trim sp = sp) by by apply trim_id.
    assert (Hxs : startsWith (js "x ") sp = false)
      by by apply (same_start_not_x _ _ Hsp).
    rewrite Htrim. unfold remaining_after_priority, remaining_after_completion.
    cbv zeta. rewrite Htrim, Hxs. unfold after_completion.
    rewrite Hp. cbn [fst snd].
    split; [done|]. split; [done|]. split; [done|]. split; [done|].
    intros A f Hf. rewrite ET. by apply Hwp, Hwd.
Qed.

Lemma digit_not_colon (c : char) : is_digit c = true -> (c =? COLON)%N = false.
Proof.
  unfold is_digit. rewrite andb_true_iff, !N.leb_le. intros [H1 H2].
  apply N.eqb_neq. unfold COLON. lia.
Qed.

Lemma sigil_run_blind (sigil : char) :
  is_digit sigil = false -> blind_to_dates (sigil_run sigil).
Proof.
  intros Hs d (c & a & -> & Hc)%date_format_head. simpl.
  destruct (N.eqb_spec c sigil) as [->|]; [congruence|done].
Qed.

Lemma tag_exec_blind : blind_to_dates (tag_exec false).
Proof.
  intros d Hd. rewrite tag_exec_token by by apply date_format_token.
  apply date_format_inv in Hd
    as (y1&y2&y3&y4&m1&m2&d1&d2&->&?&?&?&?&?&?&?&?).
  unfold split_token, split_at_colon. simpl.
  rewrite !digit_not_colon by done. simpl.
  by rewrite ?digit_not_colon.
Qed.

(** ** Round trip *)

(** C1, as stated, fails: an uncompleted line with two leading dates gets
    a completion date, [serializeTodo] does not write it, and the second
    parse has none. *)
Lemma reparse_loses_open_completion_date :
  ~ (completionDate
       (parseTodoLine (serializeTodo (parseTodoLine line_two_dates_open)))
     = completionDate (parseTodoLine line_two_dates_open)).
Proof. vm_compute. discriminate. Qed.

(** C1, amended: for every line, parsing the serialization of its parse
    gives the same completed, priority, projects, contexts and tags; it
    also gives the same completionDate, creationDate and description when
    the first parse is completed or has no completion date, that is,
    unless the line is uncompleted and starts (after its priority) with
    two dates. *)
Theorem reparse_roundtrip (line : str) :
  let t := parseTodoLine line in
  let t' := parseTodoLine (serializeTodo t) in
  completed t' = completed t
  /\ priority t' = priority t
  /\ projects t' = projects t
  /\ contexts t' = contexts t
  /\ tags t' = tags t
  /\ (completed t = true \/ completionDate t = None ->
      completionDate t' = completionDate t
      /\ creationDate t' = creationDate t
      /\ description t' = description t).
Proof.
  cbv zeta.
  destruct (reparse line) as (Htrim & Hx & Hp & Hd & Hw).
  destruct (parseTodoLine_fields (serializeTodo (parseTodoLine line)))
    as (Hc' & Hp' & Hd' & _).
  destruct (parse_sees_words (serializeTodo (parseTodoLine line)))
    as (Hpr' & Hcx' & Htg').
  destruct (parse_sees_words line) as (Hpr & Hcx & Htg).
  rewrite Htrim in *. rewrite Hx in Hc'.
  split; [done|]. split; [by rewrite Hp'|].
  split; [rewrite Hpr', Hpr; by apply Hw, sigil_run_blind|].
  split; [rewrite Hcx', Hcx; by apply Hw, sigil_run_blind|].
  split; [rewrite Htg', Htg; f_equal; apply Hw, tag_exec_blind|].
  intros Hyp. rewrite Hc', (Hd Hyp) in Hd'. by simplify_eq.
Qed.

(** [reparse_roundtrip] on a completed line with a priority, two dates, a
    project, a context and a tag: every field comes back. *)
Lemma reparse_roundtrip_witness :
  completionDate (parseTodoLine (serializeTodo (parseTodoLine line_full)))
  = completionDate (parseTodoLine line_full)
  /\ creationDate (parseTodoLine (serializeTodo (parseTodoLine line_full)))
     = creationDate (parseTodoLine line_full)
  /\ description (parseTodoLine (serializeTodo (parseTodoLine line_full)))
     = description (parseTodoLine line_full).
Proof.
  apply (reparse_roundtrip line_full). left. vm_compute. reflexivity.
Defined.

(** ** Totality *)

Lemma matchAll_from_bound exec (s : str) (skip : nat) (b : bool) :
  length (matchAll_from exec skip b s) <= S (length s).
Proof.
  revert skip b. induction s as [|c r IH]; intros skip b.
  - destruct skip; simpl; [|lia]. destruct (exec b []); simpl; lia.
  - destruct skip as [|k].
    + destruct (exec b (c :: r)) as [m|] eqn:E.
      * rewrite (matchAll_from_hit _ _ _ _ _ E). simpl.
        specialize (IH (pred (length (default [] (m !! 0%nat)))) false). lia.
      * rewrite (matchAll_from_miss _ _ _ _ E). specialize (IH 0 false).
        simpl. lia.
    + rewrite matchAll_from_skip. specialize (IH k false). simpl. lia.
Qed.

Lemma annotations_from_tokens (sigil : char) (s : str) (b : bool) :
  Forall (fun p => is_token p /\ p <> []) (annotations_from sigil b s).
Proof.
  revert b. induction s as [|c r IH]; intros b; [constructor|].
  cbn [annotations_from]. apply Forall_app. split; [|apply IH].
  destruct (b && (c =? sigil)%N); [|constructor].
  destruct (nonspace_run r) as [|x run] eqn:E; constructor; [|constructor].
  split; [|done]. rewrite <- E. apply nonspace_run_token.
Qed.

Lemma description_suffix (line : str) :
  description (parseTodoLine line) `suffix_of` trim line.
Proof.
  assert (H1 : description (parseTodoLine line)
               `suffix_of` remaining_after_priority line).
  { destruct (dates_shape line)
      as [(d1 & w1 & d2 & w2 & -> & _)|[(d & w & -> & _)|(-> & _)]].
    - exists (d1 ++ w1 :: d2 ++ [w2]). by app_norm.
    - exists (d ++ [w]). by app_norm.
    - done. }
  assert (H2 : remaining_after_priority line
               `suffix_of` remaining_after_completion line).
  { destruct (priority_shape line) as [(l & w & -> & _)|(_ & -> & _)].
    - by exists [LPAREN; l; RPAREN; w].
    - done. }
  assert (H3 : remaining_after_completion line `suffix_of` trim line).
  { destruct (completion_shape line)
      as [(_ & (lead & -> & _) & _)|(_ & -> & _)].
    - exists (js "x " ++ lead). by rewrite <- app_assoc.
    - done. }
  by repeat (etrans; [eassumption|]).
Qed.

Lemma parseTodoLine_well_formed (line : str) : well_formed (parseTodoLine line).
Proof.
  destruct (parseTodoLine_fields line) as (_ & _ & _ & Hp & Hc & _ & Hraw).
  unfold well_formed. rewrite Hraw, Hp, Hc, !annotation_scan by done.
  split; [|split; [|split; [|split; [|split]]]].
  - destruct (priority_shape line) as [(l & w & _ & Hl & _ & ->)|(-> & _)];
      [by exists l|done].
  - destruct (dates_shape line)
      as [(?&?&?&?&_&?&_&?&_& -> & _)|[(?&?&_&?&_&_& -> & _)|(_&_& -> & _)]];
      [done| |done].
    by destruct (completed (parseTodoLine line)).
  - destruct (dates_shape line)
      as [(?&?&?&?&_&?&_&?&_&_& ->)|[(?&?&_&?&_&_&_& ->)|(_&_&_& ->)]];
      [done| |done].
    by destruct (completed (parseTodoLine line)).
  - apply annotations_from_tokens.
  - apply annotations_from_tokens.
  - apply description_suffix.
Qed.

(** Every parsed record has its optional fields unset or set to a value,
    so its serialization has the layout of [layout_when_set]. *)
Lemma serializeTodo_layout_parsed (line : str) :
  serializeTodo (parseTodoLine line) = layout_when_set (parseTodoLine line).
Proof.
  rewrite serializeTodo_truthy.
  destruct (parseTodoLine_well_formed line) as (Hp & Hcd & Hcrd & _).
  apply layout_truthy_set; intros E.
  - rewrite E in Hp. by destruct Hp as (l & [=] & _).
  - by rewrite E in Hcd.
  - by rewrite E in Hcrd.
Qed.

(** ** Completion without exception *)

(** The guards matter: a read of the failed priority match throws. *)
Lemma element_of_failed_match :
  element (priority_exec (js "Task")) 1 = Throw TypeError.
Proof. done. Qed.

Lemma parse_priority_run_normal (remaining : str) :
  parse_priority_run remaining = Normal (parse_priority remaining).
Proof.
  unfold parse_priority_run, parse_priority.
  destruct (priority_exec remaining) as [m|] eqn:E; [|done].
  apply priority_exec_inv in E as (p & w & r & -> & _ & _ & ->). done.
Qed.

Lemma parse_dates_run_normal (b : bool) (remaining : str) :
  parse_dates_run b remaining = Normal (parse_dates b remaining).
Proof.
  unfold parse_dates_run, parse_dates.
  destruct (date_exec remaining) as [m|] eqn:E; [|done].
  apply date_exec_inv in E as (d & w & r & -> & _ & _ & ->).
  cbn [matched element bind lookup list_lookup length_of].
  cbv zeta. cbn [default from_option id].
  destruct (date_exec (drop (length (d ++ [w])) (d ++ w :: r))) as [m|] eqn:E;
    [|by destruct b].
  apply date_exec_inv in E as (d' & w' & r' & -> & _ & _ & ->). done.
Qed.

Lemma tag_key_whole (key s : str) (m : RegExpMatch) :
  tag_key key s = Some m -> is_Some (m !! 0%nat).
Proof.
  revert key. induction s as [|c r IH]; intros key; [done|]. simpl.
  destruct (c =? COLON)%N.
  - destruct (nonspace_run r); [|by intros [= <-]].
    destruct (is_space c); [done|]. apply IH.
  - destruct (is_space c); [done|]. apply IH.
Qed.

Lemma tag_matches_whole (s : str) :
  Forall (fun m => is_Some (m !! 0%nat)) (matchAll tag_exec s).
Proof.
  rewrite tag_scan. apply Forall_forall. intros m Hm.
  apply list_elem_of_omap in Hm as (w & _ & Hw).
  destruct w as [|c r]; [done|]. simpl in Hw.
  destruct (is_space c); [done|]. by apply tag_key_whole in Hw.
Qed.

Lemma collect_tags_run_normal (ms : list RegExpMatch) (tags : gmap str str) :
  Forall (fun m => is_Some (m !! 0%nat)) ms ->
  collect_tags_run tags ms
  = Normal (foldl (fun acc m =>
           let m0 := default [] (m !! 0%nat) in
           if truthy (m !! 1%nat) && truthy (m !! 2%nat)
              && negb (startsWith [PLUS] m0) && negb (startsWith [AT] m0)
           then obj_set (default [] (m !! 1%nat)) (default [] (m !! 2%nat)) acc
           else acc) tags ms).
Proof.
  intros H. revert tags. induction H as [|m ms [m0 Hm0] _ IH]; intros tags;
    [done|].
  cbn [collect_tags_run foldl]. rewrite Hm0. cbv zeta.
  cbn [default from_option id startsWith_of].
  destruct (truthy (m !! 1%nat) && truthy (m !! 2%nat)); cbn [andb];
    [|apply IH].
  cbn [bind].
  destruct (startsWith [PLUS] m0); cbn [negb andb]; [apply IH|].
  destruct (startsWith [AT] m0); cbn [negb andb]; apply IH.
Qed.

Lemma parseTodoLine_run_normal (line : str) :
  parseTodoLine_run line = Normal (parseTodoLine line).
Proof.
  unfold parseTodoLine_run, parseTodoLine. cbv zeta.
  rewrite parse_priority_run_normal. cbn [bind].
  destruct (parse_priority _) as [prio r1].
  rewrite parse_dates_run_normal. cbn [bind].
  destruct (parse_dates _ _) as [[cd crd] desc].
  rewrite collect_tags_run_normal by apply tag_matches_whole.
  done.
Qed.

Lemma parse_lines_run_normal (lines : list str) (todos : list Todo) :
  parse_lines_run todos lines
  = Normal (foldl (fun todos line =>
           if (0 <? length (trim line))%nat then todos ++ [parseTodoLine line]
           else todos) todos lines).
Proof.
  revert todos. induction lines as [|line rest IH]; intros todos; [done|].
  cbn [parse_lines_run foldl]. rewrite parseTodoLine_run_normal.
  destruct (0 <? length (trim line))%nat; cbn [bind];
    apply IH.
Qed.

Lemma parseTodoTxt_run_normal (text : str) :
  parseTodoTxt_run text = Normal (parseTodoTxt text).
Proof. apply parse_lines_run_normal. Qed.

(** C9: no public operation throws.  Evaluated with every read of a
    [null] match or of an [undefined] element made explicit, each of the
    seven operations completes normally on every line, text, record, list
    of records and integer index, and its value is the one the total
    function above computes.  A parsed record is well formed and keeps
    the raw line; [matchAll] makes at most one match per position of its
    input, so the loops over matches end; the empty line parses to the
    empty record. *)
Theorem operations_never_throw :
  (forall line, parseTodoLine_run line = Normal (parseTodoLine line))
  /\ (forall text, parseTodoTxt_run text = Normal (parseTodoTxt text))
  /\ (forall t, serializeTodo_run t = Normal (serializeTodo t))
  /\ (forall content t,
        appendTaskToFile_run content t = Normal (appendTaskToFile content t))
  /\ (forall todos i t,
        updateTodoInList_run todos i t = Normal (updateTodoInList todos i t))
  /\ (forall content i t,
        updateTaskAtLine_run content i t
        = Normal (updateTaskAtLine content i t))
  /\ (forall content i,
        deleteTaskAtLine_run content i = Normal (deleteTaskAtLine content i))
  /\ (forall line, well_formed (parseTodoLine line)
                   /\ raw (parseTodoLine line) = line)
  /\ (forall exec s, length (matchAll exec s) <= S (length s))
  /\ parseTodoLine_run []
     = Normal {| completed := false; priority := None;
                 completionDate := None; creationDate := None;
                 description := []; projects := []; contexts := [];
                 tags := ∅; raw := [] |}.
Proof.
  split; [apply parseTodoLine_run_normal|].
  split; [apply parseTodoTxt_run_normal|].
  split; [done|].
  split.
  { intros content t. unfold appendTaskToFile_run, appendTaskToFile.
    cbn [serializeTodo_run bind]. cbv zeta.
    by destruct (length content =? 0)%nat. }
  split; [done|].
  split.
  { intros content i t. unfold updateTaskAtLine_run, updateTaskAtLine.
    rewrite parseTodoTxt_run_normal. cbn [bind]. cbv zeta.
    destruct (length content =? 0)%nat; [done|].
    by destruct (_ || _). }
  split.
  { intros content i. unfold deleteTaskAtLine_run, deleteTaskAtLine.
    rewrite parseTodoTxt_run_normal. cbn [bind]. cbv zeta.
    destruct (length content =? 0)%nat; [done|].
    destruct (_ || _); [done|]. by destruct (length _ =? 0)%nat. }
  split.
  { intros line. split; [apply parseTodoLine_well_formed|].
    by destruct (parseTodoLine_fields line) as (_&_&_&_&_&_&?). }
  split; [intros exec s; apply matchAll_from_bound|].
  by vm_compute.
Qed.

(** * Further properties *)

(** ** Lines of a buffer *)

Lemma split_lines_nonempty (s : str) : split_lines s <> [].
Proof.
  destruct s as [|c r]; [done|]. simpl.
  destruct (c =? LF)%N; [done|]. by destruct (split_lines r).
Qed.

Lemma split_lines_cons (c : char) (r : str) :
  (c =? LF)%N = false ->
  exists l ls, split_lines r = l :: ls /\ split_lines (c :: r) = (c :: l) :: ls.
Proof.
  intros H. simpl. rewrite H.
  destruct (split_lines r) as [|l ls] eqn:E;
    [by apply split_lines_nonempty in E|].
  by exists l, ls.
Qed.

Lemma split_lines_app (a b : str) :
  split_lines (a ++ LF :: b) = split_lines a ++ split_lines b.
Proof.
  induction a as [|c a IH]; [done|].
  destruct (c =? LF)%N eqn:E.
  - cbn [app split_lines]. rewrite E, IH. done.
  - destruct (split_lines_cons c a E) as (l & ls & E1 & ->).
    destruct (split_lines_cons c (a ++ LF :: b) E) as (l' & ls' & E2 & E3).
    cbn [app]. rewrite E3. rewrite IH, E1 in E2. cbn [app] in E2.
    by simplify_eq.
Qed.

Lemma split_lines_one (s : str) : LF ∉ s -> split_lines s = [s].
Proof.
  induction s as [|c r IH]; [done|].
  intros H. apply not_elem_of_cons in H as [Hc Hr].
  simpl. rewrite (proj2 (N.eqb_neq c LF)) by done. by rewrite IH.
Qed.

Lemma split_lines_no_LF (s : str) :
  Forall (fun l => LF ∉ l) (split_lines s).
Proof.
  induction s as [|c r IH]; [repeat constructor; by apply not_elem_of_nil|].
  destruct (N.eqb_spec c LF) as [->|Hne].
  - simpl. constructor; [apply not_elem_of_nil|done].
  - destruct (split_lines_cons c r) as (l & ls & E1 & ->);
      [by apply N.eqb_neq|].
    rewrite E1 in IH. apply Forall_cons in IH as [Hl Hls].
    constructor; [|done]. apply not_elem_of_cons. split; [done|done].
Qed.

Lemma join_lines_cons (l : str) (ls : list str) :
  ls <> [] -> join_lines (l :: ls) = l ++ LF :: join_lines ls.
Proof. by destruct ls. Qed.

(** [split] undoes [join] on lines without line feed. *)
Lemma split_lines_join (ls : list str) :
  ls <> [] -> Forall (fun l => LF ∉ l) ls ->
  split_lines (join_lines ls) = ls.
Proof.
  induction ls as [|l ls IH]; [done|]. intros _ H.
  apply Forall_cons in H as [Hl Hls].
  destruct ls as [|l' ls'].
  - by apply split_lines_one.
  - rewrite join_lines_cons by done.
    rewrite split_lines_app, split_lines_one, IH by done. done.
Qed.

(** ** [parseTodoTxt] on assembled text *)

Lemma nonblank_lines_app (a b : str) :
  nonblank_lines (a ++ LF :: b) = nonblank_lines a ++ nonblank_lines b.
Proof.
  unfold nonblank_lines. by rewrite split_lines_app, List.filter_app.
Qed.

Lemma parseTodoTxt_app (a b : str) :
  parseTodoTxt (a ++ LF :: b) = parseTodoTxt a ++ parseTodoTxt b.
Proof. by rewrite !parseTodoTxt_lines, nonblank_lines_app, fmap_app. Qed.

Lemma nonblank_test (s : str) :
  (0 <? length (trim s))%nat = true <-> trim s <> [].
Proof.
  rewrite Nat.ltb_lt. destruct (trim s); simpl; split; (done || lia).
Qed.

Lemma parseTodoTxt_one (s : str) :
  one_line s -> parseTodoTxt s = [parseTodoLine s].
Proof.
  intros [Hlf Hne]. rewrite parseTodoTxt_lines. unfold nonblank_lines.
  rewrite split_lines_one by done. simpl.
  by rewrite (proj2 (nonblank_test s)).
Qed.

Lemma parseTodoTxt_blank (s : str) :
  LF ∉ s -> trim s = [] -> parseTodoTxt s = [].
Proof.
  intros Hlf He. rewrite parseTodoTxt_lines. unfold nonblank_lines.
  rewrite split_lines_one by done. simpl. by rewrite He.
Qed.

(** Parsing joined texts parses each of them. *)
Lemma parseTodoTxt_join (ls : list str) :
  parseTodoTxt (join_lines ls) = ls ≫= parseTodoTxt.
Proof.
  induction ls as [|l ls IH]; [done|].
  destruct ls as [|l' ls'].
  - simpl. by rewrite app_nil_r.
  - rewrite join_lines_cons by done. rewrite parseTodoTxt_app, IH. done.
Qed.

Lemma bind_one_line (ls : list str) :
  Forall one_line ls -> ls ≫= parseTodoTxt = parseTodoLine <$> ls.
Proof.
  induction 1 as [|l ls Hl _ IH]; [done|].
  rewrite bind_cons, fmap_cons, IH, parseTodoTxt_one by done. done.
Qed.

(** ** The shape of a description, the shape of a serialized parse *)

Lemma dates_no_trail (line : str) :
  no_trail (remaining_after_priority line) ->
  no_trail (description (parseTodoLine line))
  /\ (remaining_after_priority line <> [] ->
      description (parseTodoLine line) <> []).
Proof.
  intros Ht.
  destruct (dates_shape line)
    as [(d1 & w1 & d2 & w2 & E & _ & Hw1 & _ & Hw2 & _)
       |[(d & w & E & _ & Hw & _)|(E & _)]].
  - rewrite E in Ht.
    destruct (no_trail_after_space _ _ _ Ht Hw1) as [_ Ht'].
    by destruct (no_trail_after_space _ _ _ Ht' Hw2).
  - rewrite E in Ht. by destruct (no_trail_after_space _ _ _ Ht Hw).
  - by rewrite <- E.
Qed.

Lemma priority_no_trail (line : str) :
  no_trail (remaining_after_completion line) ->
  no_trail (remaining_after_priority line)
  /\ (remaining_after_completion line <> [] ->
      remaining_after_priority line <> []).
Proof.
  intros Ht.
  destruct (priority_shape line) as [(l & w & E & _ & Hw & _)|(_ & E & _)].
  - rewrite E in Ht.
    by destruct (no_trail_after_space [LPAREN; l; RPAREN] w _ Ht Hw).
  - by rewrite E.
Qed.

Lemma description_shape (line : str) :
  no_trail (description (parseTodoLine line))
  /\ (description (parseTodoLine line) = [] <-> trim line = []).
Proof.
  assert (H0 : no_trail (remaining_after_completion line)
               /\ (trim line <> [] -> remaining_after_completion line <> [])).
  { destruct (completion_shape line)
      as [(_ & _ & _ & ? & ?)|(_ & E & _ & _ & ?)]; [done|].
    by rewrite E. }
  destruct H0 as [Ht0 Hne0].
  destruct (priority_no_trail line Ht0) as [Ht1 Hne1].
  destruct (dates_no_trail line Ht1) as [Ht2 Hne2].
  split; [done|]. split.
  - intros He. destruct (trim line) eqn:E; [done|].
    destruct Hne2; [|done]. apply Hne1, Hne0. done.
  - intros He. pose proof (description_suffix line) as [k Hk].
    rewrite He in Hk. symmetry in Hk. by apply app_eq_nil in Hk as [_ ?].
Qed.

Lemma elem_of_trimStart (c : char) (s : str) : c ∈ trimStart s -> c ∈ s.
Proof.
  destruct (trimStart_split s) as (lead & E & _). intros H.
  rewrite E. apply elem_of_app. by right.
Qed.

Lemma trimEnd_prefix (s : str) : exists trail, s = trimEnd s ++ trail.
Proof.
  induction s as [|c r [trail E]]; [by exists []|]. simpl.
  destruct (trimEnd r) as [|d r'] eqn:Er.
  - destruct (is_space c); [by exists (c :: r)|]. exists r. done.
  - exists trail. simpl. by rewrite E at 1.
Qed.

Lemma elem_of_trim (c : char) (s : str) : c ∈ trim s -> c ∈ s.
Proof.
  unfold trim. intros H. apply elem_of_trimStart.
  destruct (trimEnd_prefix (trimStart s)) as [trail E].
  rewrite E. apply elem_of_app. by left.
Qed.

Lemma token_no_LF (w : str) : is_token w -> LF ∉ w.
Proof.
  induction w as [|c r IH]; [intros _; apply not_elem_of_nil|].
  intros [Hc Hr]%is_token_cons_inv. apply not_elem_of_cons.
  split; [|by apply IH]. intros <-. done.
Qed.

Lemma description_no_LF (line : str) :
  LF ∉ line -> LF ∉ description (parseTodoLine line).
Proof.
  intros H Hd. apply H, elem_of_trim.
  destruct (description_suffix line) as [k ->].
  apply elem_of_app. by right.
Qed.

(** The canonical form of a non-blank line without line feed is again a
    non-blank line without line feed. *)
Lemma serialize_parse_one_line (line : str) :
  one_line line -> one_line (serializeTodo (parseTodoLine line)).
Proof.
  intros [Hlf Hne]. split.
  - rewrite serializeTodo_parts.
    pose proof (description_no_LF line Hlf) as Hd.
    assert (Hp : LF ∉ default [] (priority (parseTodoLine line))).
    { destruct (priority_shape line) as [(l & w & _ & Hl & _ & ->)|(-> & _)];
        [|apply not_elem_of_nil].
      apply token_no_LF, is_token_cons; [by apply upper_not_space|done]. }
    assert (Hdates :
              (LF ∉ default [] (completionDate (parseTodoLine line)))
              /\ (LF ∉ default [] (creationDate (parseTodoLine line)))).
    { destruct (parseTodoLine_well_formed line) as (_ & H1 & H2 & _).
      split.
      - destruct (completionDate (parseTodoLine line));
          [by apply token_no_LF, date_format_token|apply not_elem_of_nil].
      - destruct (creationDate (parseTodoLine line));
          [by apply token_no_LF, date_format_token|apply not_elem_of_nil]. }
    destruct Hdates as [Hcd Hcrd].
    change (js "x ") with [LOWER_X; SP]. change (js "(") with [LPAREN].
    change (js ") ") with [RPAREN; SP]. change (js " ") with [SP].
    repeat match goal with
           | |- context [if ?b then _ else _] => destruct b
           end;
      rewrite ?not_elem_of_app, ?not_elem_of_cons, ?elem_of_nil;
      repeat split; try done; by intros [].
  - destruct (reparse line) as (Htrim & _). cbv zeta in Htrim.
    rewrite Htrim. rewrite serializeTodo_parts.
    intros He. repeat (apply app_eq_nil in He as [_ He]).
    apply (proj1 (proj2 (description_shape line))) in He. done.
Qed.

Lemma canonical_lines_one_line (text : str) :
  Forall one_line (canonical_lines text).
Proof.
  unfold canonical_lines. apply Forall_fmap, Forall_forall.
  intros line Hin. apply serialize_parse_one_line.
  unfold nonblank_lines in Hin. apply list_elem_of_In in Hin.
  apply List.filter_In in Hin as [Hin Hnb].
  split; [|by apply nonblank_test].
  pose proof (split_lines_no_LF text) as H.
  rewrite Forall_forall in H. apply H. by apply list_elem_of_In.
Qed.

Lemma parseTodoTxt_canonical (text : str) :
  parseTodoTxt (join_lines (canonical_lines text))
  = reparsed <$> parseTodoTxt text.
Proof.
  rewrite parseTodoTxt_join, bind_one_line by apply canonical_lines_one_line.
  rewrite <- render_parseTodoTxt. by rewrite <- list_fmap_compose.
Qed.

(** ** Parsing an edited buffer *)

Lemma bind_serialized (ts : list Todo) :
  (serializeTodo <$> ts) ≫= parseTodoTxt
  = ts ≫= (fun t => parseTodoTxt (serializeTodo t)).
Proof. induction ts as [|t ts IH]; [done|]. cbn. by rewrite <- IH. Qed.

Lemma parse_render (ts : list Todo) :
  parseTodoTxt (render ts) = ts ≫= (fun t => parseTodoTxt (serializeTodo t)).
Proof. unfold render. by rewrite parseTodoTxt_join, bind_serialized. Qed.

Lemma bind_reparsed (ts : list Todo) :
  Forall (fun t => one_line (serializeTodo t)) ts ->
  ts ≫= (fun t => parseTodoTxt (serializeTodo t)) = reparsed <$> ts.
Proof.
  induction 1 as [|t ts Ht _ IH]; [done|]. cbn. rewrite IH.
  by rewrite (parseTodoTxt_one _ Ht).
Qed.

Lemma parsed_serialize_one_line (text : str) :
  Forall (fun t => one_line (serializeTodo t)) (parseTodoTxt text).
Proof.
  pose proof (canonical_lines_one_line text) as H.
  rewrite <- render_parseTodoTxt in H.
  by apply (proj1 (Forall_fmap _ _ _)) in H.
Qed.

Lemma parsed_nonempty (content : str) (i : Z) :
  (0 <= i < Z.of_nat (length (parseTodoTxt content)))%Z ->
  (length content =? 0)%nat = false.
Proof.
  intros H. destruct content; [|done].
  rewrite parseTodoTxt_nil in H. simpl in H. lia.
Qed.

(** A concrete text is one non-blank line. *)
Ltac one_line_by_computation :=
  split; [apply (bool_decide_unpack _); by vm_compute|by vm_compute].

(** X1: parsing what [appendTaskToFile] returns gives the records of the
    old content followed by the records parsed from the serialized task,
    whatever the content and the task are: the old records are untouched,
    a task whose serialization is blank adds no record, one with line
    feeds in its description adds several. *)
Theorem parse_appendTaskToFile (content : str) (t : Todo) :
  parseTodoTxt (appendTaskToFile content t)
  = parseTodoTxt content ++ parseTodoTxt (serializeTodo t).
Proof.
  unfold appendTaskToFile. cbv zeta.
  destruct (length content =? 0)%nat eqn:E.
  - by apply length_zero_test in E as ->.
  - apply parseTodoTxt_app.
Qed.

(** X2: when the serialized task is one non-blank line,
    [appendTaskToFile] adds exactly one record, at the end: the task as
    [parseTodoLine] reads its serialization. *)
Theorem parse_appendTaskToFile_one (content : str) (t : Todo) :
  one_line (serializeTodo t) ->
  parseTodoTxt (appendTaskToFile content t)
  = parseTodoTxt content ++ [reparsed t].
Proof.
  intros H. unfold appendTaskToFile. cbv zeta.
  destruct (length content =? 0)%nat eqn:E.
  - apply length_zero_test in E as ->. by rewrite (parseTodoTxt_one _ H).
  - by rewrite parseTodoTxt_app, (parseTodoTxt_one _ H).
Qed.

(** [parse_appendTaskToFile_one] on the untidy buffer and a new task. *)
Lemma parse_appendTaskToFile_one_witness :
  parseTodoTxt (appendTaskToFile buffer_untidy todo_new)
  = parseTodoTxt buffer_untidy ++ [reparsed todo_new].
Proof.
  apply (parse_appendTaskToFile_one buffer_untidy todo_new).
  one_line_by_computation.
Defined.

(** X3: with an index inside the parsed records, parsing what
    [deleteTaskAtLine] returns gives the old records without the one at
    the index, each one as [parseTodoLine] reads its serialization: no
    record is lost or split by the rewrite, and [raw] becomes the
    serialized line. *)
Theorem parse_deleteTaskAtLine (content : str) (i : Z) :
  (0 <= i < Z.of_nat (length (parseTodoTxt content)))%Z ->
  parseTodoTxt (deleteTaskAtLine content i)
  = reparsed <$> delete (Z.to_nat i) (parseTodoTxt content).
Proof.
  intros H. unfold deleteTaskAtLine. cbv zeta.
  rewrite (parsed_nonempty _ _ H), in_range_test by done.
  rewrite filter_index_delete_Z by lia.
  destruct (length _ =? 0)%nat eqn:E.
  - by apply length_zero_test in E as ->.
  - rewrite parse_render. apply bind_reparsed.
    apply Forall_delete, parsed_serialize_one_line.
Qed.

(** [parse_deleteTaskAtLine] on the untidy buffer, middle record deleted. *)
Lemma parse_deleteTaskAtLine_witness :
  parseTodoTxt (deleteTaskAtLine buffer_untidy 1)
  = reparsed <$> delete 1%nat (parseTodoTxt buffer_untidy).
Proof.
  apply (parse_deleteTaskAtLine buffer_untidy 1).
  vm_compute. split; [discriminate|reflexivity].
Defined.

(** X4: with an index inside the parsed records and a task whose
    serialization is one non-blank line, parsing what [updateTaskAtLine]
    returns gives the old records with the one at the index replaced by
    the task, each one as [parseTodoLine] reads its serialization. *)
Theorem parse_updateTaskAtLine (content : str) (i : Z) (t : Todo) :
  (0 <= i < Z.of_nat (length (parseTodoTxt content)))%Z ->
  one_line (serializeTodo t) ->
  parseTodoTxt (updateTaskAtLine content i t)
  = reparsed <$> <[Z.to_nat i := t]> (parseTodoTxt content).
Proof.
  intros H Ht. unfold updateTaskAtLine, updateTodoInList. cbv zeta.
  rewrite (parsed_nonempty _ _ H), in_range_test by done.
  destruct (length (parseTodoTxt content) =? 0)%nat eqn:E.
  - apply length_zero_test in E. rewrite E in H. simpl in H. lia.
  - rewrite parse_render. apply bind_reparsed.
    apply Forall_insert; [apply parsed_serialize_one_line|done].
Qed.

(** [parse_updateTaskAtLine] on the untidy buffer, middle record replaced. *)
Lemma parse_updateTaskAtLine_witness :
  parseTodoTxt (updateTaskAtLine buffer_untidy 1 todo_new)
  = reparsed <$> <[1%nat := todo_new]> (parseTodoTxt buffer_untidy).
Proof.
  apply (parse_updateTaskAtLine buffer_untidy 1 todo_new).
  - vm_compute. split; [discriminate|reflexivity].
  - one_line_by_computation.
Defined.

(** X5: for any list of records, parsing what [updateTodoInList] returns
    gives, record by record and in order, the records parsed from each
    serialization: of the list with the record at the index replaced when
    the index is inside the list, of the list itself when it is negative
    or past the end. *)
Theorem parse_updateTodoInList (todos : list Todo) (i : Z) (t : Todo) :
  parseTodoTxt (updateTodoInList todos i t)
  = (if (0 <=? i)%Z then <[Z.to_nat i := t]> todos else todos)
    ≫= (fun u => parseTodoTxt (serializeTodo u)).
Proof.
  unfold updateTodoInList.
  destruct (length todos =? 0)%nat eqn:E.
  - apply length_zero_test in E as ->. by destruct (0 <=? i)%Z.
  - destruct (Z.ltb_spec i 0) as [Hneg|Hpos]; cbn [orb].
    + rewrite parse_render. destruct (Z.leb_spec 0 i); [lia|done].
    + destruct (Z.leb_spec 0 i); [|lia].
      destruct (Z.leb_spec (Z.of_nat (length todos)) i); rewrite parse_render;
        [|done].
      rewrite list_insert_ge by lia. done.
Qed.

(** ** Rendering twice *)

Lemma reparsed_fields (line : str) :
  dates_kept (parseTodoLine line) ->
  same_fields (reparsed (parseTodoLine line)) (parseTodoLine line).
Proof.
  intros Hyp. unfold reparsed, same_fields.
  destruct (reparse line) as (Htrim & Hx & Hp & Hd & Hw). cbv zeta in *.
  destruct (parseTodoLine_fields (serializeTodo (parseTodoLine line)))
    as (Hc' & Hp' & Hd' & _).
  destruct (parse_sees_words (serializeTodo (parseTodoLine line)))
    as (Hpr' & Hcx' & Htg').
  destruct (parse_sees_words line) as (Hpr & Hcx & Htg).
  rewrite Htrim in *. rewrite Hx in Hc'.
  rewrite Hc', (Hd Hyp) in Hd'.
  split; [done|]. split; [by rewrite Hp'|].
  split; [by simplify_eq|]. split; [by simplify_eq|].
  split; [by simplify_eq|].
  split; [rewrite Hpr', Hpr; by apply Hw, sigil_run_blind|].
  split; [rewrite Hcx', Hcx; by apply Hw, sigil_run_blind|].
  rewrite Htg', Htg; f_equal; apply Hw, tag_exec_blind.
Qed.

Lemma same_fields_serialize (t u : Todo) :
  same_fields t u -> serializeTodo t = serializeTodo u.
Proof.
  intros (H1 & H2 & H3 & H4 & H5 & _).
  by rewrite !serializeTodo_parts, H1, H2, H3, H4, H5.
Qed.

(** X6: rendering is idempotent on parsed buffers: when no record of the
    text is an uncompleted one with a completion date, parsing the
    rendered records and rendering them again gives the same text. *)
Theorem render_parse_idempotent (text : str) :
  Forall dates_kept (parseTodoTxt text) ->
  render (parseTodoTxt (render (parseTodoTxt text)))
  = render (parseTodoTxt text).
Proof.
  intros H. unfold render at 2. rewrite render_parseTodoTxt.
  rewrite parseTodoTxt_canonical. unfold render. f_equal.
  rewrite <- list_fmap_compose. apply Forall_fmap_ext.
  rewrite parseTodoTxt_lines in *.
  apply (proj1 (Forall_fmap _ _ _)) in H.
  apply Forall_fmap. eapply Forall_impl; [exact H|].
  intros line Hl. cbn in *. by apply same_fields_serialize, reparsed_fields.
Qed.

(** [render_parse_idempotent] on the untidy buffer. *)
Lemma render_parse_idempotent_witness :
  render (parseTodoTxt (render (parseTodoTxt buffer_untidy)))
  = render (parseTodoTxt buffer_untidy).
Proof.
  apply (render_parse_idempotent buffer_untidy).
  rewrite parseTodoTxt_lines. apply Forall_fmap.
  let ls := eval vm_compute in (nonblank_lines buffer_untidy) in
  change (nonblank_lines buffer_untidy) with ls.
  repeat (apply Forall_cons; split;
          [first [by left; vm_compute|by right; vm_compute]|]).
  by apply Forall_nil.
Defined.

(** ** Outer whitespace *)

Lemma trimStart_lead (lead s : str) :
  forallb is_space lead = true -> trimStart (lead ++ s) = trimStart s.
Proof.
  induction lead as [|c lead IH]; [done|]. cbn [forallb app trimStart].
  intros [-> H]%andb_true_iff. by apply IH.
Qed.

Lemma trimEnd_trail (s trail : str) :
  forallb is_space trail = true -> trimEnd (s ++ trail) = trimEnd s.
Proof.
  intros H. induction s as [|c s IH]; [by apply trimEnd_all_space|].
  cbn [app trimEnd]. by rewrite IH.
Qed.

Lemma trim_trail (s trail : str) :
  forallb is_space trail = true -> trim (s ++ trail) = trim s.
Proof.
  intros H. unfold trim. induction s as [|c s IH].
  - cbn [app]. destruct (trimStart_split trail) as (lead & E & _).
    rewrite trimEnd_all_space; [done|].
    rewrite E, forallb_app in H. by apply andb_true_iff in H as [_ ?].
  - cbn [app trimStart]. destruct (is_space c); [done|].
    by apply (trimEnd_trail (c :: s)).
Qed.

Lemma trim_pad (lead s trail : str) :
  forallb is_space lead = true -> forallb is_space trail = true ->
  trim (lead ++ s ++ trail) = trim s.
Proof.
  intros Hl Ht. unfold trim at 1. rewrite trimStart_lead by done.
  by apply trim_trail.
Qed.

Lemma parseTodoLine_trim (a b : str) :
  trim a = trim b -> same_fields (parseTodoLine a) (parseTodoLine b).
Proof.
  intros H.
  destruct (parseTodoLine_fields a) as (A1 & A2 & A3 & A4 & A5 & A6 & _).
  destruct (parseTodoLine_fields b) as (B1 & B2 & B3 & B4 & B5 & B6 & _).
  unfold remaining_after_priority, remaining_after_completion in *.
  cbv zeta in *. rewrite H in *. rewrite <- B1 in A1.
  rewrite <- B2 in A2. rewrite A1, <- B3 in A3.
  rewrite <- B4 in A4. rewrite <- B5 in A5. rewrite <- B6 in A6.
  unfold same_fields. by simplify_eq.
Qed.

(** X7: whitespace around a line (spaces, tabs, the carriage return of a
    CRLF line end) changes no field of its parse but [raw]. *)
Theorem parseTodoLine_padding (lead line trail : str) :
  forallb is_space lead = true -> forallb is_space trail = true ->
  same_fields (parseTodoLine (lead ++ line ++ trail)) (parseTodoLine line).
Proof.
  intros Hl Ht. by apply parseTodoLine_trim, trim_pad.
Qed.

(** [parseTodoLine_padding] with a space and a tab before the line, a
    carriage return and a line feed after it. *)
Lemma parseTodoLine_padding_witness :
  same_fields (parseTodoLine ([SP; TAB] ++ line_full ++ [13%N; LF]))
    (parseTodoLine line_full).
Proof.
  apply (parseTodoLine_padding [SP; TAB] line_full [13%N; LF]); reflexivity.
Defined.

(** ** The records of a buffer *)

Lemma nonblank_lines_one_line (text : str) :
  Forall one_line (nonblank_lines text).
Proof.
  apply Forall_forall. intros line Hin.
  unfold nonblank_lines in Hin. apply list_elem_of_In in Hin.
  apply List.filter_In in Hin as [Hin Hnb].
  split; [|by apply nonblank_test].
  pose proof (split_lines_no_LF text) as H.
  rewrite Forall_forall in H. apply H. by apply list_elem_of_In.
Qed.

(** X8: every record of [parseTodoTxt] has a description that is not
    empty, does not end with whitespace and holds no line feed, and a
    [raw] that is one non-blank line. *)
Theorem parseTodoTxt_descriptions (text : str) :
  Forall (fun t => description t <> [] /\ no_trail (description t)
                   /\ (LF ∉ description t) /\ one_line (raw t))
    (parseTodoTxt text).
Proof.
  rewrite parseTodoTxt_lines. apply Forall_fmap.
  eapply Forall_impl; [apply nonblank_lines_one_line|].
  intros line [Hlf Hne]. cbn.
  destruct (description_shape line) as [Ht Hd].
  destruct (parseTodoLine_fields line) as (_ & _ & _ & _ & _ & _ & Hraw).
  cbv zeta in Hraw. rewrite Hraw.
  split; [by rewrite Hd|]. split; [done|].
  split; [by apply description_no_LF|done].
Qed.

Lemma join_lines_split (s : str) : join_lines (split_lines s) = s.
Proof.
  induction s as [|c r IH]; [done|].
  destruct (c =? LF)%N eqn:E.
  - cbn [split_lines]. rewrite E. apply N.eqb_eq in E as ->.
    rewrite join_lines_cons by apply split_lines_nonempty.
    by rewrite IH.
  - destruct (split_lines_cons c r E) as (l & ls & E1 & ->).
    rewrite E1 in IH. destruct ls as [|l' ls]; [by simplify_eq/=|].
    rewrite join_lines_cons in * by done. cbn [app]. by rewrite IH.
Qed.

(** X9: when no line of the text is blank, the [raw] fields of the
    records of [parseTodoTxt], joined by line feeds, are the text itself,
    code unit for code unit. *)
Theorem raw_lines_rebuild (text : str) :
  Forall (fun line => trim line <> []) (split_lines text) ->
  join_lines (raw <$> parseTodoTxt text) = text.
Proof.
  intros H. rewrite parseTodoTxt_lines, <- list_fmap_compose.
  assert (E : nonblank_lines text = split_lines text).
  { unfold nonblank_lines. induction H as [|l ls Hl _ IH]; [done|].
    cbn [List.filter]. apply nonblank_test in Hl. by rewrite Hl, IH. }
  rewrite E. rewrite <- (join_lines_split text) at 2. f_equal.
  rewrite <- (list_fmap_id (split_lines text)) at 2.
  apply list_fmap_ext. intros i line _. cbn.
  by destruct (parseTodoLine_fields line) as (_ & _ & _ & _ & _ & _ & ?).
Qed.

(** [raw_lines_rebuild] on two lines, the second with outer spaces. *)
Lemma raw_lines_rebuild_witness :
  join_lines (raw <$> parseTodoTxt (join_lines [line_full; js "  keep  "]))
  = join_lines [line_full; js "  keep  "].
Proof.
  apply (raw_lines_rebuild (join_lines [line_full; js "  keep  "])).
  repeat (apply Forall_cons; split; [by vm_compute|]). by apply Forall_nil.
Defined.

(** ** The description carries the annotations *)

Lemma upper_not_colon (c : char) : is_upper c = true -> (c =? COLON)%N = false.
Proof.
  unfold is_upper. rewrite andb_true_iff, !N.leb_le. intros [H1 H2].
  apply N.eqb_neq. unfold COLON. lia.
Qed.

Lemma sigil_run_blind_prefixes (sigil : char) :
  sigil = PLUS \/ sigil = AT -> blind_to_prefixes (sigil_run sigil).
Proof.
  intros Hs. split; [by destruct Hs as [-> | ->]|]. split.
  - intros l _. by destruct Hs as [-> | ->].
  - apply sigil_run_blind. by destruct Hs as [-> | ->].
Qed.

Lemma tag_exec_blind_prefixes : blind_to_prefixes (tag_exec false).
Proof.
  split; [by vm_compute|]. split; [|apply tag_exec_blind].
  intros l Hl. rewrite tag_exec_token by by apply priority_token.
  unfold split_token, split_at_colon. cbn [before_colon].
  rewrite (upper_not_colon _ Hl). done.
Qed.

Lemma words_description {A} (f : str -> option A) (line : str) :
  blind_to_prefixes f ->
  omap f (words (trim line))
  = omap f (words (description (parseTodoLine line))).
Proof.
  intros (Hx & Hp & Hd).
  assert (E1 : omap f (words (remaining_after_priority line))
               = omap f (words (description (parseTodoLine line)))).
  { destruct (dates_shape line)
      as [(d1 & w1 & d2 & w2 & E & H1 & Hw1 & H2 & Hw2 & _)
         |[(d & w & E & H & Hw & _)|(E & _)]]; rewrite E.
    - destruct (date_format_token _ H1), (date_format_token _ H2).
      rewrite (words_token_sep d1 w1), (words_token_sep d2 w2) by done.
      by rewrite !omap_cons, !Hd.
    - destruct (date_format_token _ H).
      rewrite (words_token_sep d w) by done.
      by rewrite !omap_cons, !Hd.
    - done. }
  assert (E0 : omap f (words (remaining_after_completion line))
               = omap f (words (remaining_after_priority line))).
  { destruct (priority_shape line) as [(l & w & E & Hl & Hw & _)|(_ & E & _)].
    - rewrite E.
      pose proof (words_token_sep [LPAREN; l; RPAREN] w
                    (remaining_after_priority line)
                    (priority_token _ Hl) ltac:(done) Hw) as W.
      cbn [app] in W. by rewrite W, omap_cons, Hp.
    - by rewrite E. }
  destruct (completion_shape line)
    as [(_ & (lead & E & Hlead) & _)|(_ & E & _)]; rewrite E.
  - change (js "x ") with [LOWER_X; SP]. cbn [app].
    pose proof (words_token_sep [LOWER_X] SP
                  (lead ++ remaining_after_completion line)
                  eq_refl ltac:(done) eq_refl) as W.
    cbn [app] in W. rewrite W, words_lead, omap_cons, Hx by done.
    by rewrite E0.
  - by rewrite E0.
Qed.

(** X10: the description carries the annotations: parsing the
    description of a parsed line as a line of its own gives the same
    projects, contexts and tags, so [serializeTodo] loses none of them by
    writing the description only. *)
Theorem annotations_in_description (line : str) :
  let t := parseTodoLine line in
  let u := parseTodoLine (description t) in
  projects u = projects t /\ contexts u = contexts t /\ tags u = tags t.
Proof.
  cbv zeta. destruct (parse_sees_words line) as (P & C & T).
  destruct (parse_sees_words (description (parseTodoLine line)))
    as (P' & C' & T').
  assert (W : words (trim (description (parseTodoLine line)))
              = words (description (parseTodoLine line))).
  { destruct (description_shape line) as [Hnt _].
    destruct (trim_split _ Hnt) as (lead & E & Hl).
    rewrite E at 2. by rewrite words_lead. }
  rewrite W in *. rewrite P, C, T, P', C', T'.
  rewrite !(words_description _ line) by
    first [apply tag_exec_blind_prefixes
          |apply sigil_run_blind_prefixes; auto].
  done.
Qed.

(** ** Parsing the serialization of a record built by hand *)

Lemma plain_text_shape (s : str) :
  plain_text s ->
  s <> [] /\ no_lead s /\ no_trail s /\ startsWith (js "x ") s = false
  /\ ~ starts_with_priority s /\ ~ starts_with_date s.
Proof.
  intros (Hne & Htrim & Hx & Hp & Hd).
  split; [done|]. split; [rewrite <- Htrim; apply trim_no_lead|].
  split; [rewrite <- Htrim; apply trim_no_trail|]. split; [done|].
  split; [by apply priority_exec_none|by apply date_exec_none].
Qed.

Lemma write_dates (b : bool) (cd crd : option str) (desc : str) :
  match cd with Some d => date_format d = true | None => True end ->
  match crd with Some d => date_format d = true | None => True end ->
  (b = true \/ cd = None) ->
  (b = true -> cd = None -> crd = None) ->
  plain_text desc ->
  let sd := (if b && truthy cd then default [] cd ++ js " " else [])
            ++ (if truthy crd then default [] crd ++ js " " else [])
            ++ desc in
  parse_dates b sd = (cd, crd, desc)
  /\ no_trail sd
  /\ (sd = desc \/ exists c a, sd = c :: a /\ is_digit c = true).
Proof.
  intros Hcd Hcrd Hk Hc (Hne & _ & Ht & _ & _ & Hnd)%plain_text_shape.
  cbv zeta. change (js " ") with [SP].
  assert (Hhead : forall d r, date_format d = true ->
            exists c a, (d ++ [SP]) ++ r = c :: a /\ is_digit c = true).
  { intros d r (c & a & -> & ?)%date_format_head. by eexists _, _. }
  assert (Htrail : forall d r, no_trail r -> r <> [] ->
            no_trail ((d ++ [SP]) ++ r)).
  { intros d r ? ?. by apply no_trail_app. }
  destruct cd as [d1|], crd as [d2|], b;
    try (destruct Hk; discriminate); try (by discriminate Hc);
    rewrite ?date_format_truthy by done;
    cbn [andb truthy default from_option id app].
  - split; [|split].
    + app_norm. by apply (parse_dates_two true d1 d2 SP SP).
    + apply Htrail; [by apply Htrail|].
      destruct (Hhead d2 desc Hcrd) as (c & a & -> & _). done.
    + right. by apply Hhead.
  - split; [|split].
    + app_norm. by rewrite (parse_dates_one true d1 SP).
    + by apply Htrail.
    + right. by apply Hhead.
  - split; [|split].
    + app_norm. by rewrite (parse_dates_one false d2 SP).
    + by apply Htrail.
    + right. by apply Hhead.
  - split; [by apply parse_dates_zero|]. split; [done|by left].
  - split; [by apply parse_dates_zero|]. split; [done|by left].
Qed.

Lemma write_priority (prio : option str) (sd desc : str) :
  match prio with
  | Some p => exists l, p = [l] /\ is_upper l = true
  | None => True
  end ->
  no_trail sd ->
  (sd = desc \/ exists c a, sd = c :: a /\ is_digit c = true) ->
  plain_text desc ->
  let sp := (if truthy prio then js "(" ++ default [] prio ++ js ") " else [])
            ++ sd in
  parse_priority sp = (prio, sd) /\ no_trail sp /\ same_start sp desc.
Proof.
  intros Hp Ht Hhead (Hne & _ & _ & _ & Hnp & _)%plain_text_shape. cbv zeta.
  change (js "(") with [LPAREN]. change (js ") ") with [RPAREN; SP].
  assert (Hsd : sd <> []).
  { destruct Hhead as [->|(c & a & -> & _)]; done. }
  destruct prio as [p|].
  - destruct Hp as (l & -> & Hl). cbn [truthy default from_option id app].
    split; [by apply parse_priority_some|]. split.
    + by apply (no_trail_app [LPAREN; l; RPAREN; SP]).
    + right. eexists _, _. split; [done|]. by right.
  - cbn [truthy app]. split; [|split; [done|]].
    + apply parse_priority_none.
      destruct Hhead as [->|(c & a & -> & Hc)]; [done|].
      intros (l & w & r & [= -> _] & _). done.
    + destruct Hhead as [->|(c & a & -> & Hc)]; [by left|].
      right. eexists _, _. split; [done|]. by left.
Qed.

(** X11: a record built by hand is read back from its serialization:
    when the priority is one capital, the dates are in date format, an
    uncompleted record has no completion date, a completed one has no
    creation date without a completion date, and the description is
    trimmed, not empty and starts with neither ["x "], a priority nor a
    date, [parseTodoLine] of [serializeTodo] gives back completed,
    priority, both dates and the description, and the projects, contexts
    and tags are those found in the description. *)
Theorem parse_serialize_writable (t : Todo) :
  writable t ->
  let u := parseTodoLine (serializeTodo t) in
  completed u = completed t /\ priority u = priority t
  /\ completionDate u = completionDate t /\ creationDate u = creationDate t
  /\ description u = description t
  /\ projects u = projects (parseTodoLine (description t))
  /\ contexts u = contexts (parseTodoLine (description t))
  /\ tags u = tags (parseTodoLine (description t)).
Proof.
  intros (Hp & Hcd & Hcrd & Hk & Hc & Hplain). cbv zeta.
  destruct (write_dates (completed t) _ _ _ Hcd Hcrd Hk Hc Hplain)
    as (Hd & Htd & Hhd).
  destruct (write_priority (priority t) _ _ Hp Htd Hhd Hplain)
    as (Hpp & Htp & Hsp).
  pose proof (plain_text_shape _ Hplain) as (Hne & Hl & Ht & Hx & _).
  pose proof (serializeTodo_parts t) as S.
  set (sd := _ ++ _ ++ description t) in *.
  set (sp := _ ++ sd) in *.
  assert (Hlp : no_lead sp) by by apply (same_start_no_lead _ _ Hsp).
  assert (Hnesp : sp <> []) by by apply (same_start_nonempty _ _ Hsp).
  assert (Hxsp : startsWith (js "x ") sp = false)
    by by apply (same_start_not_x _ _ Hsp).
  assert (F : trim (serializeTodo t) = serializeTodo t
              /\ startsWith (js "x ") (serializeTodo t) = completed t
              /\ remaining_after_completion (serializeTodo t) = sp).
  { rewrite S. unfold remaining_after_completion. cbv zeta.
    destruct (completed t).
    - change (js "x ") with [LOWER_X; SP].
      assert (Htrim : trim ([LOWER_X; SP] ++ sp) = [LOWER_X; SP] ++ sp).
      { apply trim_id; [done|by apply no_trail_app]. }
      rewrite Htrim. cbn [app]. unfold after_completion.
      change (startsWith [LOWER_X; SP] (LOWER_X :: SP :: sp)) with true.
      cbn iota. change (drop 2 (LOWER_X :: SP :: sp)) with sp.
      by rewrite trim_id.
    - cbn [app]. rewrite trim_id by done. by rewrite Hxsp. }
  destruct F as (Htrim & Hxs & Hr0).
  destruct (parseTodoLine_fields (serializeTodo t)) as (Fc & Fp & Fd & _).
  cbv zeta in Fc, Fp, Fd. unfold remaining_after_priority in Fd.
  rewrite Hr0, Hpp in Fp, Fd. cbn [fst snd] in Fp, Fd.
  rewrite Htrim, Hxs in Fc. rewrite Fc, Hd in Fd.
  assert (Hdesc : description (parseTodoLine (serializeTodo t))
                  = description t) by congruence.
  split; [done|]. split; [done|].
  split; [congruence|]. split; [congruence|]. split; [done|].
  destruct (parse_sees_words (serializeTodo t)) as (P & C & T).
  destruct (parse_sees_words (description t)) as (P' & C' & T').
  cbv zeta in P, C, T, P', C', T'.
  rewrite (trim_id (description t)) in P', C', T' by done.
  rewrite P, C, T, P', C', T'.
  rewrite !(words_description _ (serializeTodo t)) by
    first [apply tag_exec_blind_prefixes
          |apply sigil_run_blind_prefixes; auto].
  by rewrite Hdesc.
Qed.

(** [parse_serialize_writable] on a completed record with a priority,
    both dates, a project, a context and a tag. *)
Lemma parse_serialize_writable_witness :
  let t := parseTodoLine line_full in
  let u := parseTodoLine (serializeTodo t) in
  completed u = completed t /\ priority u = priority t
  /\ completionDate u = completionDate t /\ creationDate u = creationDate t
  /\ description u = description t
  /\ projects u = projects (parseTodoLine (description t))
  /\ contexts u = contexts (parseTodoLine (description t))
  /\ tags u = tags (parseTodoLine (description t)).
Proof.
  apply (parse_serialize_writable (parseTodoLine line_full)).
  split; [by exists 65%N|]. split; [done|]. split; [done|].
  split; [by left|]. split; [done|]. by repeat split.
Defined.
